(** * ArchExtractor: recursive archive extraction over patoolib

    A shallow embedding of [src/archextractor/archextractor.py].  The
    three methods of the class [ArchExtractor] ([test_archive], [extract],
    [extractall]) are written in a small state-and-exception monad over a
    model of the file system.  The archive backend (patoolib) and the
    predicate [is_auto_generated] of the module [utils] are taken as an
    environment.

    What the model fixes:
    - a path is the list of its components, all of them ordinary names, as
      the entries of a directory are: no empty name, no [.] or [..], no
      symbolic link;
    - the file system is a finite map from paths to [File] or [Dir]; what a
      file holds is not modelled, the backend decides from the path and the
      file system;
    - the backend may raise [PatoolError] or an exception of any other class
      (patoolib creates the output directory itself, and the [OSError] of that
      is none of its own); [shutil.rmtree] and [os.remove] raise [OSError]
      when the path is of the wrong kind or the operating system refuses;
      a refused [os.remove] changes nothing, a refused [shutil.rmtree] may have
      removed part of what lies below its path; [os.walk] skips a directory
      it cannot list; [os.listdir] of a directory that has just passed
      [os.path.isdir] does not fail;
    - the state carries the instance fields and a trace of the calls to the
      collaborators and of the log records, in program order;
    - [extractall] and [os.walk] recurse on fuel; the recursion limit of the
      interpreter is not modelled. *)

From Stdlib Require Import ZArith Ascii String.
From stdpp Require Import base option list strings gmap fin_maps.

Open Scope string_scope.
Open Scope list_scope.

(** ** Paths

    A path is the list of its components; [os.path.join root name] appends
    one component and [os.path.basename] returns the last one. *)

Abbreviation path := (list string).

Definition join (root : path) (name : string) : path := root ++ [name].

Definition basename (p : path) : string := default EmptyString (last p).

Fixpoint all_dots (s : string) : bool :=
  match s with
  | EmptyString => true
  | String c s' => if Ascii.eqb c "."%char then all_dots s' else false
  end.

(** The part of [s] before its last dot, when it has a dot. *)
Fixpoint before_last_dot (s : string) : option string :=
  match s with
  | EmptyString => None
  | String c s' =>
      match before_last_dot s' with
      | Some pre => Some (String c pre)
      | None => if Ascii.eqb c "."%char then Some EmptyString else None
      end
  end.

(** [os.path.splitext(name)[0]] for a single component: the extension starts
    at the last dot, and leading dots never start an extension. *)
Definition splitext_root (name : string) : string :=
  match before_last_dot name with
  | Some pre => if all_dots pre then name else pre
  | None => name
  end.

(** ** File system *)

Inductive kind := File | Dir.

#[global] Instance kind_eq_dec : EqDecision kind.
Proof. solve_decision. Defined.

Abbreviation FS := (gmap (list string) kind).

Definition path_exists (fs : FS) (p : path) : bool :=
  match fs !! p with Some _ => true | None => false end.

Definition path_isdir (fs : FS) (p : path) : bool :=
  match fs !! p with Some Dir => true | _ => false end.

(** The name of [q] inside [top], when [q] is a direct child of [top]. *)
Definition child_name (top q : path) : option string :=
  match drop (length top) q with
  | [n] => if decide (take (length top) q = top) then Some n else None
  | _ => None
  end.

Definition entries (fs : FS) (top : path) : list (string * kind) :=
  omap (fun qk => match child_name top qk.1 with
                  | Some n => Some (n, qk.2)
                  | None => None
                  end) (map_to_list fs).

Definition names_of (k : kind) (l : list (string * kind)) : list string :=
  omap (fun nk => if decide (nk.2 = k) then Some nk.1 else None) l.

(** [os.scandir top] as [os.walk] uses it: the sub-directories and the other
    entries of [top], or nothing when [top] cannot be listed. *)
Definition scandir (fs : FS) (top : path) : option (list string * list string) :=
  if path_isdir fs top
  then Some (names_of Dir (entries fs top), names_of File (entries fs top))
  else None.

Definition listdir (fs : FS) (top : path) : list string :=
  (entries fs top).*1.

(** [shutil.rmtree p]: [p] and everything below it. *)
Definition rmtree (p : path) (fs : FS) : FS :=
  filter (fun qk => ¬ p `prefix_of` qk.1) fs.

(** What [shutil.rmtree p] leaves when it stops at an entry it cannot
    remove: [p] itself and, below [p], the entries [keep] names; it unlinks
    as it goes, so the others are gone. *)
Definition rmtree_partial (keep : path -> bool) (p : path) (fs : FS) : FS :=
  filter (fun qk => ¬ p `prefix_of` qk.1 \/ qk.1 = p \/ keep qk.1 = true) fs.

(** ** Program state *)

Record Options := mkOptions {
  verbosity : Z;
  program : option string;
  interactive : bool;
  password : option string
}.

(** The instance fields set by [__init__]. *)
Record ArchExtractor := mkArchExtractor {
  src : path;
  dst : path
}.

Inductive log_msg :=
| NotValidArchive (p : path)
| FailedTest (p : path) (reason : string)
| FailedExtract (p : path) (reason : string)
| RemovedAutoGenerated (p : path)
| RemovedCleanup (p : path).

(** The calls to the collaborators and the log records, in program order. *)
Inductive event :=
| CallIsArchive (p : path)
| CallTestArchive (p : path) (o : Options)
| CallExtractArchive (s d : path) (o : Options)
| CallIsAutoGenerated (p : path)
| CallExists (p : path)
| CallIsdir (p : path)
| CallListdir (p : path)
| CallScandir (p : path)
| CallRmtree (p : path)
| CallRemove (p : path)
| LogError (m : log_msg)
| LogInfo (m : log_msg).

Record State := mkState {
  fs : FS;
  self : ArchExtractor;
  trace : list event
}.

Definition emit (e : event) (st : State) : State :=
  mkState (fs st) (self st) (trace st ++ [e]).

Definition set_fs (f : FS) (st : State) : State :=
  mkState f (self st) (trace st).

Definition set_self (o : ArchExtractor) (st : State) : State :=
  mkState (fs st) o (trace st).

(** ** Exceptions and the monad *)

(** [OSError] stands for the class and its subclasses ([PermissionError],
    [NotADirectoryError], ...), [OtherError] for any class that is neither a
    [PatoolError] nor an [OSError]. *)
Inductive exn :=
| PatoolError (msg : string)
| OSError (msg : string)
| OtherError (msg : string).

Inductive outcome (A : Type) :=
| Ret (a : A)
| Raise (e : exn)
| OutOfFuel.
Arguments Ret {A} a.
Arguments Raise {A} e.
Arguments OutOfFuel {A}.

Definition M (A : Type) : Type := State -> outcome A * State.

Definition ret {A} (a : A) : M A := fun st => (Ret a, st).

Definition bind {A B} (m : M A) (f : A -> M B) : M B :=
  fun st =>
    match m st with
    | (Ret a, st') => f a st'
    | (Raise e, st') => (Raise e, st')
    | (OutOfFuel, st') => (OutOfFuel, st')
    end.

Definition raise {A} (e : exn) : M A := fun st => (Raise e, st).

Definition out_of_fuel {A} : M A := fun st => (OutOfFuel, st).

Notation "x <- m ;; k" := (bind m (fun x => k))
  (at level 100, m at next level, right associativity).
Notation "m ;;; k" := (bind m (fun _ => k))
  (at level 100, right associativity).

(** [try: m except PatoolError as exc: h exc] *)
Definition try_except_patool {A} (m : M A) (h : string -> M A) : M A :=
  fun st =>
    match m st with
    | (Raise (PatoolError msg), st') => h msg st'
    | r => r
    end.

(** [try: m except OSError: h] *)
Definition try_except_oserror {A} (m : M A) (h : M A) : M A :=
  fun st =>
    match m st with
    | (Raise (OSError _), st') => h st'
    | r => r
    end.

(** [try: m finally: fin]: [fin] runs after [m] however [m] ended; an
    exception of [fin] replaces the outcome of [m]. *)
Definition try_finally {A} (m : M A) (fin : M unit) : M A :=
  fun st =>
    match m st with
    | (OutOfFuel, st') => (OutOfFuel, st')
    | (r, st') =>
        match fin st' with
        | (Ret _, st'') => (r, st'')
        | (Raise e, st'') => (Raise e, st'')
        | (OutOfFuel, st'') => (OutOfFuel, st'')
        end
    end.

Fixpoint for_each {A} (l : list A) (body : A -> M unit) : M unit :=
  match l with
  | [] => ret tt
  | x :: l' => body x ;;; for_each l' body
  end.

(** ** Environment

    What the class calls and does not define: the patoolib backend, the
    predicate [is_auto_generated] of [utils], and the refusals of the
    operating system when a path is deleted. *)

Record Env := mkEnv {
  (** [patoolib.is_archive]: no exception, nothing written. *)
  is_archive : FS -> path -> bool;
  (** [patoolib.test_archive]: the exception it raises, if any. *)
  probe : Options -> path -> FS -> option exn;
  (** [patoolib.extract_archive src outdir]: the file system it leaves, and
      the exception it raises, if any. *)
  unpack : Options -> path -> path -> FS -> FS * option exn;
  (** [utils.is_auto_generated]. *)
  is_auto_generated : path -> bool;
  (** [shutil.rmtree] and [os.remove] refused (permissions and the like). *)
  rmtree_denied : FS -> path -> bool;
  remove_denied : FS -> path -> bool;
  (** The entries below its path that a refused [shutil.rmtree] leaves. *)
  rmtree_leaves : FS -> path -> path -> bool
}.

(** The file system after a [shutil.rmtree p] that raised: nothing is touched
    when [p] is no directory. *)
Definition rmtree_stopped (E : Env) (p : path) (f : FS) : FS :=
  if path_isdir f p then rmtree_partial (rmtree_leaves E f p) p f else f.

(** The longest path of the file system: it bounds the depth of [os.walk]. *)
Definition depth_bound (f : FS) : nat :=
  max_list (length <$> (map_to_list f).*1).

Section Program.

Variable E : Env.

(** *** Collaborator calls *)

Definition patoolib_is_archive (p : path) : M bool :=
  fun st => (Ret (is_archive E (fs st) p), emit (CallIsArchive p) st).

Definition patoolib_test_archive (p : path) (o : Options) : M unit :=
  fun st =>
    let st' := emit (CallTestArchive p o) st in
    match probe E o p (fs st) with
    | Some e => (Raise e, st')
    | None => (Ret tt, st')
    end.

Definition patoolib_extract_archive (s d : path) (o : Options) : M unit :=
  fun st =>
    let r := unpack E o s d (fs st) in
    let st' := set_fs r.1 (emit (CallExtractArchive s d o) st) in
    match r.2 with
    | Some e => (Raise e, st')
    | None => (Ret tt, st')
    end.

Definition utils_is_auto_generated (p : path) : M bool :=
  fun st => (Ret (is_auto_generated E p), emit (CallIsAutoGenerated p) st).

Definition os_path_exists (p : path) : M bool :=
  fun st => (Ret (path_exists (fs st) p), emit (CallExists p) st).

Definition os_path_isdir (p : path) : M bool :=
  fun st => (Ret (path_isdir (fs st) p), emit (CallIsdir p) st).

Definition os_listdir (p : path) : M (list string) :=
  fun st => (Ret (listdir (fs st) p), emit (CallListdir p) st).

(** [shutil.rmtree p] raises when [p] is not a directory or is refused; the
    entries it has unlinked by then are gone. *)
Definition shutil_rmtree (p : path) : M unit :=
  fun st =>
    let st' := emit (CallRmtree p) st in
    if path_isdir (fs st) p && negb (rmtree_denied E (fs st) p)
    then (Ret tt, set_fs (rmtree p (fs st)) st')
    else (Raise (OSError "rmtree"), set_fs (rmtree_stopped E p (fs st)) st').

(** [os.remove p] raises when [p] is not a regular file or is refused, and
    then changes nothing. *)
Definition os_remove (p : path) : M unit :=
  fun st =>
    let st' := emit (CallRemove p) st in
    match fs st !! p with
    | Some File =>
        if remove_denied E (fs st) p
        then (Raise (OSError "remove"), st')
        else (Ret tt, set_fs (delete p (fs st)) st')
    | _ => (Raise (OSError "remove"), st')
    end.

Definition logger_error (m : log_msg) : M unit :=
  fun st => (Ret tt, emit (LogError m) st).

Definition logger_info (m : log_msg) : M unit :=
  fun st => (Ret tt, emit (LogInfo m) st).

(** [os.walk top], top-down, with the body of the [for] loop run at each
    directory before the walk descends.  A directory that cannot be listed
    is skipped, as [os.walk] does without an [onerror]. *)
Fixpoint os_walk (fuel : nat) (top : path)
    (body : path -> list string -> list string -> M unit) : M unit :=
  fun st =>
    let st1 := emit (CallScandir top) st in
    match scandir (fs st) top with
    | None => (Ret tt, st1)
    | Some (dirs, files) =>
        match fuel with
        | 0 => (OutOfFuel, st1)
        | S n =>
            (body top dirs files ;;;
             for_each dirs (fun d => os_walk n (join top d) body)) st1
        end
    end.

(** *** The class *)

(** [__init__] *)
Definition init (s d : path) : M unit :=
  fun st => (Ret tt, set_self (mkArchExtractor s d) st).

(** [if a is None: a = self.field] *)
Definition arg_or_field (a : option path) (field : ArchExtractor -> path) : M path :=
  match a with
  | Some p => ret p
  | None => fun st => (Ret (field (self st)), st)
  end.

Definition test_archive (osrc : option path) (o : Options) : M bool :=
  s <- arg_or_field osrc src ;;
  a <- patoolib_is_archive s ;;
  if negb a then
    logger_error (NotValidArchive s) ;;; ret false
  else
    early <- try_except_patool
               (patoolib_test_archive s o ;;; ret None)
               (fun msg => logger_error (FailedTest s msg) ;;; ret (Some false)) ;;
    match early with
    | Some b => ret b
    | None => ret true
    end.

(** The body of the loop over [dirs], and that of the loop over [files]. *)
Definition dir_step (root : path) (dir : string) : M unit :=
  let dir_path := join root dir in
  g <- utils_is_auto_generated dir_path ;;
  if g then
    e <- os_path_exists dir_path ;;
    if e then shutil_rmtree dir_path ;;; logger_info (RemovedAutoGenerated dir_path)
    else ret tt
  else ret tt.

Definition file_step (root : path) (file : string) : M unit :=
  let file_path := join root file in
  g <- utils_is_auto_generated file_path ;;
  if g then
    e <- os_path_exists file_path ;;
    if e then os_remove file_path ;;; logger_info (RemovedAutoGenerated file_path)
    else ret tt
  else ret tt.

(** The body of the loop over [os.walk(dst)] in [extract]. *)
Definition remove_auto_generated (root : path) (dirs files : list string) : M unit :=
  for_each dirs (dir_step root) ;;;
  for_each files (file_step root).

Definition walk_dst (d : path) : M unit :=
  fun st => os_walk (S (depth_bound (fs st))) d remove_auto_generated st.

(** The statements of the inner [try] of the [finally] block. *)
Definition cleanup_and_delete (s d : path) (cleanup : bool) : M unit :=
  walk_dst d ;;;
  if cleanup then
    e <- os_path_exists s ;;
    if e then os_remove s ;;; logger_info (RemovedCleanup s) else ret tt
  else ret tt.

(** The [finally] block. *)
Definition finalizer (s d : path) (cleanup : bool) : M unit :=
  try_except_oserror (cleanup_and_delete s d cleanup) (ret tt).

(** The [try] block with its [except PatoolError] clause. *)
Definition extraction_attempt (s d : path) (o : Options) : M unit :=
  try_except_patool
    (patoolib_extract_archive s d o)
    (fun msg => logger_error (FailedExtract s msg)).

Definition extract (osrc odst : option path) (o : Options) (cleanup : bool) : M unit :=
  s <- arg_or_field osrc src ;;
  d <- arg_or_field odst dst ;;
  ok <- test_archive (Some s) o ;;
  if negb ok then ret tt
  else try_finally (extraction_attempt s d o) (finalizer s d cleanup).

Fixpoint extractall (fuel : nat) (osrc odst : option path) (o : Options)
    (cleanup : bool) : M unit :=
  match fuel with
  | 0 => out_of_fuel
  | S n =>
      s <- arg_or_field osrc src ;;
      d <- arg_or_field odst dst ;;
      extract (Some s) (Some d) o cleanup ;;;
      let extract_dir := join d (splitext_root (basename s)) in
      e <- os_path_exists extract_dir ;;
      if negb e then ret tt
      else
        isd <- os_path_isdir extract_dir ;;
        if negb isd then ret tt
        else
          files <- os_listdir extract_dir ;;
          for_each files (fun file =>
            let sub_file := join extract_dir file in
            a <- patoolib_is_archive sub_file ;;
            if a then extractall n (Some sub_file) (Some extract_dir) o cleanup
            else ret tt)
  end.

End Program.

(** * Vocabulary of the statements *)

(** ** Properties of computations *)

(** Every run of [m] relates the state before to the state after. *)
Definition rel {A} (R : State -> State -> Prop) (m : M A) : Prop :=
  forall st, R st (m st).2.

(** From a state in [I], [m] does not run out of fuel and ends in [I]. *)
Definition fueled {A} (I : State -> Prop) (m : M A) : Prop :=
  forall st, I st -> (m st).1 <> OutOfFuel /\ I (m st).2.

(** Every run of [m] that returns relates the state before to the state
    after. *)
Definition on_return {A} (R : State -> State -> Prop) (m : M A) : Prop :=
  forall st a st', m st = (Ret a, st') -> R st st'.

(** The exceptions [m] can end with are in [P]. *)
Definition raises {A} (P : exn -> Prop) (m : M A) : Prop :=
  forall st e, (m st).1 = Raise e -> P e.

Definition is_oserror (e : exn) : Prop :=
  match e with OSError _ => True | _ => False end.

Definition is_patoolerror (e : exn) : Prop :=
  match e with PatoolError _ => True | _ => False end.

Definition is_deletion (e : event) : Prop :=
  match e with CallRmtree _ | CallRemove _ => True | _ => False end.

(** A computation that, when it raises, has a deletion as its last event. *)
Definition stops_at_deletion {A} (m : M A) : Prop :=
  forall st e st', m st = (Raise e, st') ->
    exists ev, last (trace st') = Some ev /\ is_deletion ev.

(** ** Relations between two states *)

(** The instance, or the file system, is the same; the file system only
    loses entries. *)
Definition same_self (st st' : State) : Prop := self st' = self st.
Definition shrinks (st st' : State) : Prop := fs st' ⊆ fs st.
Definition same_fs (st st' : State) : Prop := fs st' = fs st.

(** The trace only grows. *)
Definition extends (st st' : State) : Prop := trace st `prefix_of` trace st'.

(** The paths outside [C] are as before. *)
Definition frame (C : path -> Prop) (st st' : State) : Prop :=
  forall q, ~ C q -> fs st' !! q = fs st !! q.

(** The event [e] was added between [st] and [st']. *)
Definition emitted (e : event) (st st' : State) : Prop :=
  exists l1 l2, trace st' = trace st ++ l1 ++ e :: l2.

(** The events added between two states satisfy [P]. *)
Definition added (P : list event -> Prop) (st st' : State) : Prop :=
  exists evs, trace st' = trace st ++ evs /\ P evs.

(** ** File systems and traces *)

(** No path has more than [D] components. *)
Definition bounded (D : nat) (f : FS) : Prop :=
  forall p k, f !! p = Some k -> length p <= D.

(** [q] is of kind [k] or absent. *)
Definition kind_or_gone (f : FS) (k : kind) (q : path) : Prop :=
  f !! q = Some k \/ f !! q = None.

(** [q] is in the subtree of the directory [top]: every path from [top]
    down to the parent of [q] is a directory. *)
Inductive in_subtree (f : FS) : path -> path -> Prop :=
| in_subtree_child top n :
    f !! top = Some Dir -> is_Some (f !! join top n) ->
    in_subtree f top (join top n)
| in_subtree_deeper top n q :
    f !! top = Some Dir -> in_subtree f (join top n) q ->
    in_subtree f top q.

(** The events of [test_archive]. *)
Definition validation_event (e : event) : Prop :=
  match e with
  | CallIsArchive _ | CallTestArchive _ _
  | LogError (NotValidArchive _) | LogError (FailedTest _ _) => True
  | _ => False
  end.

(** Every deletion in [evs] comes right after the existence check of the
    same path. *)
Definition guarded (evs : list event) : Prop :=
  forall l1 e l2 p, evs = l1 ++ e :: l2 ->
    e = CallRmtree p \/ e = CallRemove p -> last l1 = Some (CallExists p).

(** ** Pieces of the methods *)

(** The state after the [try] block of [extract] and its [except] clause:
    only a [PatoolError] is caught and logged. *)
Definition after_unpack (E : Env) (s d : path) (o : Options) (st : State) : State :=
  let r := unpack E o s d (fs st) in
  let st' := set_fs r.1 (emit (CallExtractArchive s d o) st) in
  match r.2 with
  | Some (PatoolError msg) => emit (LogError (FailedExtract s msg)) st'
  | _ => st'
  end.

(** How the [try] block and its [except] clause end: normally, unless the
    backend raised an exception that is no [PatoolError]. *)
Definition attempt_outcome (E : Env) (s d : path) (o : Options) (st : State) :
    outcome unit :=
  match (unpack E o s d (fs st)).2 with
  | None | Some (PatoolError _) => Ret tt
  | Some e => Raise e
  end.

(** The loop of [extractall] over the entries of the output directory. *)
Definition descend (E : Env) (n : nat) (extract_dir : path) (o : Options) (c : bool)
    (files : list string) : M unit :=
  for_each files (fun file =>
    let sub_file := join extract_dir file in
    a <- patoolib_is_archive E sub_file ;;
    if a then extractall E n (Some sub_file) (Some extract_dir) o c else ret tt).

(** The state in which [extractall] stops when there is no output
    directory. *)
Definition no_descent (extract_dir : path) (st1 : State) : State :=
  if path_exists (fs st1) extract_dir
  then emit (CallIsdir extract_dir) (emit (CallExists extract_dir) st1)
  else emit (CallExists extract_dir) st1.

(** ** Properties of the environment *)

(** [q] lies at or below a path that is strictly below [top] and that
    [is_auto_generated] accepts. *)
Definition artifact_above (E : Env) (top q : path) : Prop :=
  exists p, top `prefix_of` p /\ p <> top /\ p `prefix_of` q /\
            is_auto_generated E p = true.

(** A test for [artifact_above]: some prefix of [q] longer than [top] is
    auto-generated. *)
Definition artifact_aboveb (E : Env) (top q : path) : bool :=
  existsb (fun k => is_auto_generated E (take k q))
          (seq (S (length top)) (length q - length top)).

(** An auto-generated path strictly between [top] and [q]. *)
Definition artifact_between (E : Env) (top q : path) : Prop :=
  exists p, top `prefix_of` p /\ p <> top /\ p `prefix_of` q /\ p <> q /\
            is_auto_generated E p = true.

(** The operating system refuses no deletion. *)
Definition lenient (E : Env) : Prop :=
  forall f p, rmtree_denied E f p = false /\ remove_denied E f p = false.

(** The backend raises no exception but [PatoolError]. *)
Definition patool_only (E : Env) : Prop :=
  (forall o p f e, probe E o p f = Some e -> is_patoolerror e) /\
  (forall o s d f e, (unpack E o s d f).2 = Some e -> is_patoolerror e).

(** The extractions a run of [extractall] on [s0] and [d0] asks for: that of
    [s0] into [d0], then those of an entry of an output directory into this
    directory. *)
Definition nested_call (s0 d0 s d : path) : Prop :=
  (s = s0 /\ d = d0) \/ exists file, s = join d file.

(** The nesting of the archives ends: the file systems of [Inv] have no path
    of more than [D] components, and a run of [extractall] on [s0] and [d0]
    with the options [o] does not leave [Inv], neither by a deletion nor by
    an extraction it asks for, that is, of an archive that passed the
    validation. *)
Definition bounded_nesting (E : Env) (o : Options) (s0 d0 : path) (D : nat)
    (Inv : FS -> Prop) : Prop :=
  (forall f, Inv f -> bounded D f) /\
  (forall f f', f' ⊆ f -> Inv f -> Inv f') /\
  (forall s d f, nested_call s0 d0 s d -> Inv f ->
     is_archive E f s = true -> probe E o s f = None ->
     Inv (unpack E o s d f).1).

(** ** Three claims that fail *)

(** The claim that no failure of the backend leaves [test_archive] or
    [extract], nor ends the run of [extractall]: whatever the probe raises,
    [test_archive] returns false, and whatever the extraction raises,
    [extract] returns and [extractall] ends without an exception. *)
Definition backend_failures_never_propagate : Prop :=
  forall (E : Env) (s d : path) (o : Options) (c : bool) (st : State) (e : exn),
    (is_archive E (fs st) s = true -> probe E o s (fs st) = Some e ->
     (test_archive E (Some s) o st).1 = Ret false) /\
    (forall st1, test_archive E (Some s) o st = (Ret true, st1) ->
       (unpack E o s d (fs st1)).2 = Some e ->
       (extract E (Some s) (Some d) o c st).1 = Ret tt /\
       forall fuel e', (extractall E fuel (Some s) (Some d) o c st).1 <> Raise e').

(** The claim that without [cleanup] the source outlives [extract] whenever
    the backend leaves it in place. *)
Definition source_kept_without_cleanup : Prop :=
  forall (E : Env) (s d : path) (o : Options) (st st1 : State),
    test_archive E (Some s) o st = (Ret true, st1) ->
    is_Some (fs (after_unpack E s d o st1) !! s) ->
    is_Some (fs (extract E (Some s) (Some d) o false st).2 !! s).

(** The claim that the walk examines every path of the subtree of its
    root. *)
Definition walk_examines_whole_subtree : Prop :=
  forall (E : Env) (d : path) (st : State) (q : path),
    in_subtree (fs st) d q ->
    emitted (CallIsAutoGenerated q) st (walk_dst E d st).2.

(** ** A small backend for examples *)

(** Archives are the names in [.zip]; [outer.zip] holds a directory [outer]
    with [inner.zip] and a [__MACOSX] directory, [inner.zip] holds a directory
    [inner] with [leaf.txt], any other archive fails to unpack.  The backend
    creates the output directory when it is missing, and fails with an
    [OSError] when the output path is taken by something else.  A probe fails
    on a missing file and on [corrupt.zip].  A directory that holds an entry
    named [locked] cannot be removed: a [shutil.rmtree] of it or of a
    directory above it leaves the entries named [locked] and the directories
    that lead to them. *)
Definition ends_with (suf s : string) : bool :=
  (String.length suf <=? String.length s)%nat &&
  String.eqb (substring (String.length s - String.length suf) (String.length suf) s) suf.

Definition demo_unpack (o : Options) (s d : path) (f : FS) : FS * option exn :=
  if path_exists f d && negb (path_isdir f d) then
    (f, Some (OSError "NotADirectoryError"))
  else
    let f := <[d := Dir]> f in
    if String.eqb (basename s) "outer.zip" then
      (<[join d "outer" := Dir]>
         (<[join (join d "outer") "inner.zip" := File]>
            (<[join (join d "outer") "__MACOSX" := Dir]>
               (<[join (join (join d "outer") "__MACOSX") "._leaf.txt" := File]> f))), None)
    else if String.eqb (basename s) "inner.zip" then
      (<[join d "inner" := Dir]> (<[join (join d "inner") "leaf.txt" := File]> f), None)
    else (f, Some (PatoolError "cannot unpack")).

Definition demo_leaves (f : FS) (p q : path) : bool :=
  existsb (fun r => bool_decide (q `prefix_of` r) && String.eqb (basename r) "locked")
          (map_to_list f).*1.

(** Modelled from the spec: [utils.is_auto_generated] is not part of the
    sources; the spec names resource-fork companions, trash and metadata
    directories and thumbnail caches as what it recognises. *)
Definition demo_is_auto_generated (p : path) : bool :=
  String.eqb (basename p) "__MACOSX" || String.eqb (basename p) ".DS_Store"
  || String.eqb (basename p) "Thumbs.db" || String.prefix "._" (basename p).

Definition demo_env : Env :=
  mkEnv (fun _ p => ends_with ".zip" (basename p))
        (fun _ p f =>
           if negb (path_exists f p) then Some (PatoolError "missing")
           else if String.eqb (basename p) "corrupt.zip" then Some (PatoolError "corrupt")
           else None)
        demo_unpack
        demo_is_auto_generated
        (fun f p => path_exists f (join p "locked"))
        (fun _ _ => false)
        demo_leaves.

Definition demo_options : Options := mkOptions 0 None false None.

Definition demo_state (f : FS) : State :=
  mkState f (mkArchExtractor ["d"; "outer.zip"] ["d"]) [].

Definition demo_fs : FS :=
  <[ ["d"] := Dir ]> (<[ ["d"; "outer.zip"] := File ]>
  (<[ ["d"; "corrupt.zip"] := File ]> (<[ ["d"; "broken.zip"] := File ]>
  (<[ ["d"; "notes.txt"] := File ]> ∅)))).

Definition locked_fs : FS :=
  <[ ["d"; "__MACOSX"] := Dir ]> (<[ ["d"; "__MACOSX"; "locked"] := File ]> demo_fs).

Definition macosx_fs : FS :=
  <[ ["d"] := Dir ]> (<[ ["d"; "__MACOSX"] := Dir ]>
  (<[ ["d"; "__MACOSX"; "outer.zip"] := File ]> ∅)).

Definition resource_fork_fs : FS :=
  <[ ["d"] := Dir ]> (<[ ["d"; "__MACOSX"] := Dir ]>
  (<[ ["d"; "__MACOSX"; "._leaf.txt"] := File ]> (<[ ["d"; "leaf.txt"] := File ]> ∅))).

(** Every entry a run on [demo_fs] can meet. *)
Definition demo_reach : FS :=
  <[ ["d"; "outer"] := Dir ]> (<[ ["d"; "outer"; "inner.zip"] := File ]>
  (<[ ["d"; "outer"; "__MACOSX"] := Dir ]>
  (<[ ["d"; "outer"; "__MACOSX"; "._leaf.txt"] := File ]>
  (<[ ["d"; "outer"; "inner"] := Dir ]>
  (<[ ["d"; "outer"; "inner"; "leaf.txt"] := File ]> demo_fs))))).

(** An archive next to a file that is given as the destination. *)
Definition file_destination_fs : FS :=
  <[ ["a"] := Dir ]> (<[ ["a"; "outer.zip"] := File ]>
  (<[ ["a"; "notes.txt"] := File ]> ∅)).

(** An auto-generated directory with a removable entry and a locked one. *)
Definition half_locked_fs : FS :=
  <[ ["d"] := Dir ]> (<[ ["d"; "__MACOSX"] := Dir ]>
  (<[ ["d"; "__MACOSX"; "locked"] := File ]>
  (<[ ["d"; "__MACOSX"; "x.txt"] := File ]> ∅))).

(** An archive that holds a copy of itself: unpacking [q.zip] into [d] gives
    [d/q/q.zip]. *)
Definition quine_env : Env :=
  mkEnv (fun _ p => String.eqb (basename p) "q.zip")
        (fun _ p f => if path_exists f p then None else Some (PatoolError "missing"))
        (fun _ _ d f =>
           (<[join d "q" := Dir]> (<[join (join d "q") "q.zip" := File]> f), None))
        (fun _ => false)
        (fun _ _ => false) (fun _ _ => false) (fun _ _ _ => false).

(** ** Vocabulary of the further properties *)

(** No path of the subtree of [top] is auto-generated. *)
Definition clean_subtree (E : Env) (f : FS) (top : path) : Prop :=
  forall q, in_subtree f top q -> is_auto_generated E q = false.

(** The two marks a removal leaves in the trace: its record, and the call
    that made it. *)
Definition is_record (p : path) (e : event) : Prop :=
  e = LogInfo (RemovedAutoGenerated p).

Definition is_attempt (p : path) (e : event) : Prop :=
  e = CallRmtree p \/ e = CallRemove p.

(** Between the two states the file system only lost entries, every path
    that changed lies at or below a path with a mark among the events added,
    and every path with a removal record is gone. *)
Definition removals_marked (mark : path -> event -> Prop) (st st' : State) : Prop :=
  fs st' ⊆ fs st /\
  exists evs, trace st' = trace st ++ evs /\
    (forall q, fs st' !! q <> fs st !! q ->
       exists p e, p `prefix_of` q /\ e ∈ evs /\ mark p e) /\
    (forall p, LogInfo (RemovedAutoGenerated p) ∈ evs -> fs st' !! p = None).

(** The event that has to come right before [e], if any: a deletion follows
    the existence check of the same path, the backend extraction follows the
    probe of the same path with the same options, and the probe follows the
    [is_archive] call on the same path. *)
Definition predecessor (e : event) : option event :=
  match e with
  | CallRmtree p | CallRemove p => Some (CallExists p)
  | CallExtractArchive s _ o => Some (CallTestArchive s o)
  | CallTestArchive p _ => Some (CallIsArchive p)
  | _ => None
  end.

(** In [l], met after the event [prev], every event that needs a predecessor
    comes right after it. *)
Definition ordered_after (prev : option event) (l : list event) : Prop :=
  forall l1 e l2 e0, l = l1 ++ e :: l2 -> predecessor e = Some e0 ->
    last (option_list prev ++ l1) = Some e0.

Definition in_order (l : list event) : Prop := ordered_after None l.

(** What a call of [extractall] with source [s], destination [d], options
    [o] and [cleanup = c] may ask of the backend and of the operating system:
    the backend gets the options [o] and unpacks into [d] or below; what is
    listed by the walk is [d] or below, what is examined and what is deleted
    lies strictly below [d], except that [os.remove] may also be called on
    [s] when [c] is set. *)
Definition confined (o : Options) (c : bool) (s d : path) (e : event) : Prop :=
  match e with
  | CallTestArchive _ o' => o' = o
  | CallExtractArchive _ d' o' => o' = o /\ d `prefix_of` d'
  | CallScandir p => d `prefix_of` p
  | CallIsAutoGenerated p | CallRmtree p => d `prefix_of` p /\ p <> d
  | CallRemove p => (d `prefix_of` p /\ p <> d) \/ (c = true /\ p = s)
  | _ => True
  end.

(** The backend only adds entries: it removes and overwrites nothing. *)
Definition additive (E : Env) : Prop :=
  forall o s d f, f ⊆ (unpack E o s d f).1.

(** Neither [q] nor a directory above it is auto-generated. *)
Definition genuine (E : Env) (q : path) : Prop :=
  forall p, p `prefix_of` q -> is_auto_generated E p = false.

(** The genuine entries are kept. *)
Definition keeps_genuine (E : Env) (st st' : State) : Prop :=
  forall q k, genuine E q -> fs st !! q = Some k -> fs st' !! q = Some k.

(** The backend [E] made to leave what exists as it is. *)
Definition never_overwrites (E : Env) : Env :=
  mkEnv (is_archive E) (probe E)
        (fun o s d f => let r := unpack E o s d f in (f ∪ r.1, r.2))
        (is_auto_generated E) (rmtree_denied E) (remove_denied E)
        (rmtree_leaves E).

(** No dot in [s]. *)
Fixpoint dot_free (s : string) : bool :=
  match s with
  | EmptyString => true
  | String c s' => negb (Ascii.eqb c "."%char) && dot_free s'
  end.

(** File systems for the examples of the further properties. *)
Definition source_dir_fs : FS :=
  <[ ["d"] := Dir ]> (<[ ["d"; "outer.zip"] := Dir ]> ∅).

Definition stale_output_fs : FS :=
  <[ ["d"] := Dir ]> (<[ ["d"; "notes.txt"] := File ]>
  (<[ ["d"; "notes"] := Dir ]> (<[ ["d"; "notes"; "inner.zip"] := File ]> ∅))).

Definition siblings_fs : FS :=
  <[ ["d"] := Dir ]> (<[ ["d"; "pack.zip"] := File ]>
  (<[ ["d"; "pack"] := Dir ]> (<[ ["d"; "pack"; "corrupt.zip"] := File ]>
  (<[ ["d"; "pack"; "inner.zip"] := File ]> ∅)))).

(** * The embedding on examples *)

Example splitext_root_examples :
  splitext_root "top_compress.zip" = "top_compress" /\
  splitext_root "a.tar.gz" = "a.tar" /\
  splitext_root ".bashrc" = ".bashrc" /\
  splitext_root "README" = "README".
Proof. by vm_compute. Qed.

(** [outer.zip] holds [inner.zip], which holds [leaf.txt]: with [cleanup]
    both archives are gone in the end, and so is the [__MACOSX] directory. *)
Example nested_archives_with_cleanup :
  let r := extractall demo_env 4 None None demo_options true (demo_state demo_fs) in
  r.1 = Ret tt /\
  fs r.2 !! ["d"; "outer"; "inner"; "leaf.txt"] = Some File /\
  fs r.2 !! ["d"; "outer.zip"] = None /\
  fs r.2 !! ["d"; "outer"; "inner.zip"] = None /\
  fs r.2 !! ["d"; "outer"; "__MACOSX"] = None /\
  fs r.2 !! ["d"; "notes.txt"] = Some File.
Proof. by vm_compute. Qed.

Example nested_archives_without_cleanup :
  let r := extractall demo_env 4 None None demo_options false (demo_state demo_fs) in
  r.1 = Ret tt /\
  fs r.2 !! ["d"; "outer"; "inner"; "leaf.txt"] = Some File /\
  fs r.2 !! ["d"; "outer.zip"] = Some File /\
  fs r.2 !! ["d"; "outer"; "inner.zip"] = Some File.
Proof. by vm_compute. Qed.

(** Given a file as the destination, the backend raises an [OSError]: it
    leaves [extractall], and the finalizer has removed the source before. *)
Example destination_taken_by_a_file :
  let r := extractall demo_env 3 (Some ["a"; "outer.zip"]) (Some ["a"; "notes.txt"])
             demo_options true (demo_state file_destination_fs) in
  r.1 = Raise (OSError "NotADirectoryError") /\
  fs r.2 !! ["a"; "outer.zip"] = None /\
  fs r.2 !! ["a"; "notes.txt"] = Some File.
Proof. by vm_compute. Qed.

(** A [shutil.rmtree] that stops at a locked entry has removed the others. *)
Example refused_rmtree_removes_part :
  let r := shutil_rmtree demo_env ["d"; "__MACOSX"] (demo_state half_locked_fs) in
  r.1 = Raise (OSError "rmtree") /\
  fs r.2 !! ["d"; "__MACOSX"; "x.txt"] = None /\
  fs r.2 !! ["d"; "__MACOSX"; "locked"] = Some File /\
  fs r.2 !! ["d"; "__MACOSX"] = Some Dir.
Proof. by vm_compute. Qed.

(** * Reasoning principles *)

(** The collaborator calls unfolded, with a case for each test they make. *)
Ltac prim := let s := fresh "st" in intros s; cbv beta delta [patoolib_is_archive
  patoolib_test_archive patoolib_extract_archive utils_is_auto_generated
  os_path_exists os_path_isdir os_listdir shutil_rmtree os_remove logger_error
  logger_info arg_or_field init ret raise out_of_fuel]; simpl;
  repeat match goal with
         | |- context [match ?x with _ => _ end] => destruct x eqn:?; simpl
         end.

(** ** State relations kept by every step of a computation *)

Section Rel.

Context (R : State -> State -> Prop) `{!PreOrder R}.

Lemma rel_ret {A} (a : A) : rel R (ret a).
Proof. intros st. simpl. reflexivity. Qed.

Lemma rel_bind {A B} (m : M A) (f : A -> M B) :
  rel R m -> (forall a, rel R (f a)) -> rel R (bind m f).
Proof.
  intros Hm Hf st. unfold bind.
  specialize (Hm st). destruct (m st) as [[a | e |] st1]; simpl in *; auto.
  etransitivity; [exact Hm | apply Hf].
Qed.

Lemma rel_for_each {A} (l : list A) (body : A -> M unit) :
  (forall x, x ∈ l -> rel R (body x)) -> rel R (for_each l body).
Proof.
  induction l as [| x l IH]; intros Hb; simpl.
  - apply rel_ret.
  - apply rel_bind.
    + apply Hb. left.
    + intros _. apply IH. intros y Hy. apply Hb. by right.
Qed.

Lemma rel_try_except_patool {A} (m : M A) (h : string -> M A) :
  rel R m -> (forall msg, rel R (h msg)) -> rel R (try_except_patool m h).
Proof.
  intros Hm Hh st. unfold try_except_patool.
  specialize (Hm st). destruct (m st) as [[a | [msg | msg | msg] |] st1]; simpl in *; auto.
  etransitivity; [exact Hm | apply Hh].
Qed.

Lemma rel_try_except_oserror {A} (m h : M A) :
  rel R m -> rel R h -> rel R (try_except_oserror m h).
Proof.
  intros Hm Hh st. unfold try_except_oserror.
  specialize (Hm st). destruct (m st) as [[a | [msg | msg | msg] |] st1]; simpl in *; auto.
  etransitivity; [exact Hm | apply Hh].
Qed.

Lemma rel_try_finally {A} (m : M A) (fin : M unit) :
  rel R m -> rel R fin -> rel R (try_finally m fin).
Proof.
  intros Hm Hf st. unfold try_finally.
  specialize (Hm st). destruct (m st) as [[a | e |] st1]; simpl in *; auto.
  all: specialize (Hf st1); destruct (fin st1) as [[[] | e' |] st2]; simpl in *.
  all: etransitivity; eauto.
Qed.

Lemma rel_if {A} (b : bool) (m1 m2 : M A) :
  rel R m1 -> rel R m2 -> rel R (if b then m1 else m2).
Proof. by destruct b. Qed.

End Rel.

(** ** Outcomes that are not a lack of fuel *)

Section Fueled.

Context (I : State -> Prop).

Lemma fueled_ret {A} (a : A) : fueled I (ret a).
Proof. intros st H. by split. Qed.

Lemma fueled_bind {A B} (m : M A) (f : A -> M B) :
  fueled I m -> (forall a, fueled I (f a)) -> fueled I (bind m f).
Proof.
  intros Hm Hf st H. unfold bind.
  destruct (Hm st H) as [Hr Hi].
  destruct (m st) as [[a | e |] st1]; simpl in *; [by apply Hf | by split | done].
Qed.

Lemma fueled_for_each {A} (l : list A) (body : A -> M unit) :
  (forall x, x ∈ l -> fueled I (body x)) -> fueled I (for_each l body).
Proof.
  induction l as [| x l IH]; intros Hb; simpl.
  - apply fueled_ret.
  - apply fueled_bind.
    + apply Hb. left.
    + intros _. apply IH. intros y Hy. apply Hb. by right.
Qed.

Lemma fueled_try_except_patool {A} (m : M A) (h : string -> M A) :
  fueled I m -> (forall msg, fueled I (h msg)) -> fueled I (try_except_patool m h).
Proof.
  intros Hm Hh st H. unfold try_except_patool.
  destruct (Hm st H) as [Hr Hi].
  destruct (m st) as [[a | [msg | msg | msg] |] st1]; simpl in *; auto.
  by apply Hh.
Qed.

Lemma fueled_try_except_oserror {A} (m h : M A) :
  fueled I m -> fueled I h -> fueled I (try_except_oserror m h).
Proof.
  intros Hm Hh st H. unfold try_except_oserror.
  destruct (Hm st H) as [Hr Hi].
  destruct (m st) as [[a | [msg | msg | msg] |] st1]; simpl in *; auto.
Qed.

Lemma fueled_try_finally {A} (m : M A) (fin : M unit) :
  fueled I m -> fueled I fin -> fueled I (try_finally m fin).
Proof.
  intros Hm Hf st H. unfold try_finally.
  destruct (Hm st H) as [Hr Hi].
  destruct (m st) as [[a | e |] st1]; simpl in *; try done.
  all: destruct (Hf st1 Hi) as [Hr' Hi'].
  all: destruct (fin st1) as [[[] | e' |] st2]; simpl in *; try done.
Qed.

Lemma fueled_if {A} (b : bool) (m1 m2 : M A) :
  fueled I m1 -> fueled I m2 -> fueled I (if b then m1 else m2).
Proof. by destruct b. Qed.

End Fueled.

(** ** File-system facts *)

Lemma depth_bound_bounded (f : FS) : bounded (depth_bound f) f.
Proof.
  intros p k Hp. unfold depth_bound.
  apply max_list_elem_of_le.
  apply list_elem_of_fmap. exists p. split; [done |].
  apply list_elem_of_fmap. exists (p, k). split; [done |].
  by apply elem_of_map_to_list.
Qed.

Lemma bounded_subseteq (D : nat) (f f' : FS) :
  f' ⊆ f -> bounded D f -> bounded D f'.
Proof. intros Hsub Hb p k Hp. eapply Hb, lookup_weaken; eauto. Qed.

Lemma rmtree_subseteq (p : path) (f : FS) : rmtree p f ⊆ f.
Proof. apply map_filter_subseteq. Qed.

Lemma rmtree_lookup (p q : path) (f : FS) :
  rmtree p f !! q = if decide (p `prefix_of` q) then None else f !! q.
Proof.
  unfold rmtree. destruct (decide (p `prefix_of` q)) as [Hpq | Hpq].
  - apply map_lookup_filter_None. right. intros k _ Hn. by apply Hn.
  - destruct (f !! q) as [k |] eqn:Hq.
    + apply map_lookup_filter_Some. by split.
    + apply map_lookup_filter_None. by left.
Qed.

Lemma rmtree_stopped_subseteq (E : Env) (p : path) (f : FS) :
  rmtree_stopped E p f ⊆ f.
Proof.
  unfold rmtree_stopped, rmtree_partial.
  destruct (path_isdir f p); [apply map_filter_subseteq | done].
Qed.

(** A refused [shutil.rmtree p] touches nothing but what lies strictly below
    [p]. *)
Lemma rmtree_stopped_lookup (E : Env) (p q : path) (f : FS) :
  ~ (p `prefix_of` q /\ q <> p) -> rmtree_stopped E p f !! q = f !! q.
Proof.
  intros Hq. unfold rmtree_stopped, rmtree_partial.
  destruct (path_isdir f p); [| done].
  destruct (f !! q) as [k |] eqn:Hf.
  - apply map_lookup_filter_Some. split; [done |]. simpl.
    destruct (decide (p `prefix_of` q)) as [Hp | Hp]; [| by left].
    right; left. destruct (decide (q = p)) as [-> | Hne]; [done |].
    by destruct Hq.
  - by apply map_lookup_filter_None_2; left.
Qed.


Lemma path_isdir_lookup (f : FS) (p : path) :
  path_isdir f p = true <-> f !! p = Some Dir.
Proof. unfold path_isdir. destruct (f !! p) as [[] |]; naive_solver. Qed.

Lemma path_exists_lookup (f : FS) (p : path) :
  path_exists f p = true <-> is_Some (f !! p).
Proof.
  unfold path_exists. destruct (f !! p) as [k |]; split; intros H; try done.
Qed.

Lemma scandir_Some_isdir (f : FS) (top : path) r :
  scandir f top = Some r -> f !! top = Some Dir.
Proof.
  unfold scandir. destruct (path_isdir f top) eqn:Hd; [| done].
  intros _. by apply path_isdir_lookup.
Qed.

Lemma child_name_join (top : path) (n : string) :
  child_name top (join top n) = Some n.
Proof.
  unfold child_name, join.
  rewrite drop_app_length, take_app_length. by rewrite decide_True.
Qed.

Lemma child_name_Some (top q : path) (n : string) :
  child_name top q = Some n -> q = join top n.
Proof.
  unfold child_name, join. intros H.
  destruct (drop (length top) q) as [| m [| ? ?]] eqn:Hd; try done.
  destruct (decide (take (length top) q = top)) as [Ht |]; [| done].
  inversion H; subst m. by rewrite <- (take_drop (length top) q), Hd, Ht.
Qed.

Lemma elem_of_entries (f : FS) (top : path) (n : string) (k : kind) :
  (n, k) ∈ entries f top <-> f !! join top n = Some k.
Proof.
  unfold entries. rewrite list_elem_of_omap. split.
  - intros [[q k'] [Hin Hm]]. simpl in Hm.
    destruct (child_name top q) as [m |] eqn:Hc; [| done].
    inversion Hm; subst. apply child_name_Some in Hc. subst q.
    by apply elem_of_map_to_list in Hin.
  - intros Hl. exists (join top n, k). split.
    + by apply elem_of_map_to_list.
    + simpl. by rewrite child_name_join.
Qed.

Lemma elem_of_names_of (k : kind) (l : list (string * kind)) (n : string) :
  n ∈ names_of k l <-> (n, k) ∈ l.
Proof.
  unfold names_of. rewrite list_elem_of_omap. split.
  - intros [[m k'] [Hin Hm]]. simpl in Hm.
    destruct (decide (k' = k)); [| done]. by inversion Hm; subst.
  - intros Hin. exists (n, k). split; [done |]. simpl. by rewrite decide_True.
Qed.

Lemma scandir_dirs (f : FS) (top : path) (ds fl : list string) (n : string) :
  scandir f top = Some (ds, fl) -> n ∈ ds <-> f !! join top n = Some Dir.
Proof.
  unfold scandir. destruct (path_isdir f top); [| done].
  intros H. inversion H; subst. by rewrite elem_of_names_of, elem_of_entries.
Qed.

Lemma scandir_files (f : FS) (top : path) (ds fl : list string) (n : string) :
  scandir f top = Some (ds, fl) -> n ∈ fl <-> f !! join top n = Some File.
Proof.
  unfold scandir. destruct (path_isdir f top); [| done].
  intros H. inversion H; subst. by rewrite elem_of_names_of, elem_of_entries.
Qed.

Lemma elem_of_listdir (f : FS) (top : path) (n : string) :
  n ∈ listdir f top <-> is_Some (f !! join top n).
Proof.
  unfold listdir. rewrite list_elem_of_fmap. split.
  - intros [[m k] [-> Hin]]. simpl. apply elem_of_entries in Hin. by exists k.
  - intros [k Hk]. exists (n, k). split; [done |]. by apply elem_of_entries.
Qed.

(** ** Relations between the state before and after *)

#[global] Instance same_self_preorder : PreOrder same_self.
Proof. split; unfold same_self; [done | congruence]. Qed.

#[global] Instance shrinks_preorder : PreOrder shrinks.
Proof.
  split; unfold shrinks.
  - by intros st.
  - intros st1 st2 st3 H12 H23. by etransitivity.
Qed.

#[global] Instance same_fs_preorder : PreOrder same_fs.
Proof. split; unfold same_fs; [done | congruence]. Qed.

Section Walk.

Variable E : Env.

(** The walk under a relation that emitting an event keeps. *)
Lemma rel_os_walk (R : State -> State -> Prop) `{!PreOrder R}
    (G : path -> Prop) (body : path -> list string -> list string -> M unit) :
  (forall st p, R st (emit (CallScandir p) st)) ->
  (forall r d, G r -> G (join r d)) ->
  (forall r ds fl, G r -> rel R (body r ds fl)) ->
  forall n top, G top -> rel R (os_walk n top body).
Proof.
  intros Hemit HG Hbody. induction n as [| n IH]; intros top Htop st; simpl.
  - destruct (scandir (fs st) top) as [[ds fl] |]; simpl; apply Hemit.
  - destruct (scandir (fs st) top) as [[ds fl] |]; simpl; [| apply Hemit].
    etransitivity; [apply (Hemit st top) |].
    apply rel_bind; [done | by apply Hbody |].
    intros _. apply rel_for_each; [done |]. intros d _. apply IH. by apply HG.
Qed.

(** *** The walk only deletes *)

Lemma shrinks_emit st e : shrinks st (emit e st).
Proof. by unfold shrinks. Qed.

Lemma shrinks_rmtree p : rel shrinks (shutil_rmtree E p).
Proof.
  prim; unfold shrinks; simpl; [apply rmtree_subseteq | apply rmtree_stopped_subseteq].
Qed.

Lemma shrinks_remove p : rel shrinks (os_remove E p).
Proof. prim; unfold shrinks; simpl; try done. apply delete_subseteq. Qed.

Lemma shrinks_remove_auto_generated root ds fl :
  rel shrinks (remove_auto_generated E root ds fl).
Proof.
  unfold remove_auto_generated.
  apply rel_bind; [apply _ | |intros _]; apply rel_for_each; try apply _; intros x _.
  all: apply rel_bind; [apply _ | prim; apply shrinks_emit |].
  all: intros g; apply rel_if; [| by apply rel_ret, _].
  all: apply rel_bind; [apply _ | prim; apply shrinks_emit |].
  all: intros e; apply rel_if; [| by apply rel_ret, _].
  all: apply rel_bind; [apply _ | | intros _; prim; apply shrinks_emit].
  - apply shrinks_rmtree.
  - apply shrinks_remove.
Qed.

Lemma shrinks_os_walk n top : rel shrinks (os_walk n top (remove_auto_generated E)).
Proof.
  apply (rel_os_walk shrinks (fun _ => True)); try done.
  - intros; apply shrinks_emit.
  - intros. apply shrinks_remove_auto_generated.
Qed.

Lemma shrinks_walk_dst d : rel shrinks (walk_dst E d).
Proof. intros st. unfold walk_dst. apply shrinks_os_walk. Qed.

(** *** The walk has fuel enough *)

Lemma fueled_of_shrinks {A} (D : nat) (m : M A) :
  rel shrinks m -> (forall st, (m st).1 <> OutOfFuel) ->
  fueled (fun st => bounded D (fs st)) m.
Proof.
  intros Hs Hn st Hb. split; [apply Hn |].
  eapply bounded_subseteq; [apply Hs | done].
Qed.

Lemma remove_auto_generated_fueled root ds fl st :
  (remove_auto_generated E root ds fl st).1 <> OutOfFuel.
Proof.
  assert (fueled (fun _ => True) (remove_auto_generated E root ds fl)) as H.
  { unfold remove_auto_generated.
    apply fueled_bind; [| intros _]; apply fueled_for_each; intros x _.
    all: apply fueled_bind; [by prim |].
    all: intros g; apply fueled_if; [| by apply fueled_ret].
    all: apply fueled_bind; [by prim |].
    all: intros e; apply fueled_if; [| by apply fueled_ret].
    all: apply fueled_bind; [by prim | by intros _; prim]. }
  by apply H.
Qed.

Lemma os_walk_fueled (D : nat) :
  forall n top, D < n + length top ->
    fueled (fun st => bounded D (fs st)) (os_walk n top (remove_auto_generated E)).
Proof.
  induction n as [| n IH]; intros top Hlt st Hb; simpl.
  - destruct (scandir (fs st) top) as [[ds fl] |] eqn:Hs; simpl; [| done].
    apply scandir_Some_isdir, Hb in Hs. lia.
  - destruct (scandir (fs st) top) as [[ds fl] |] eqn:Hs; simpl; [| done].
    apply (fueled_bind (fun st => bounded D (fs st))); [| | done].
    + apply fueled_of_shrinks.
      * apply shrinks_remove_auto_generated.
      * apply remove_auto_generated_fueled.
    + intros _. apply fueled_for_each. intros d _. apply IH.
      unfold join. rewrite length_app. simpl. lia.
Qed.

Lemma walk_dst_fueled d st : (walk_dst E d st).1 <> OutOfFuel.
Proof.
  unfold walk_dst.
  apply (os_walk_fueled (depth_bound (fs st))); [lia |].
  apply depth_bound_bounded.
Qed.

End Walk.

(** ** Exceptions that can leave a computation *)

Section Raises.

Context (P : exn -> Prop).

Lemma raises_ret {A} (a : A) : raises P (ret a).
Proof. by intros st e. Qed.

Lemma raises_bind {A B} (m : M A) (f : A -> M B) :
  raises P m -> (forall a, raises P (f a)) -> raises P (bind m f).
Proof.
  intros Hm Hf st e. unfold bind. specialize (Hm st).
  destruct (m st) as [[a | e' |] st1]; simpl in *; [apply Hf | | done].
  intros [= ->]. by apply Hm.
Qed.

Lemma raises_for_each {A} (l : list A) (body : A -> M unit) :
  (forall x, raises P (body x)) -> raises P (for_each l body).
Proof.
  intros Hb. induction l as [| x l IH]; simpl.
  - apply raises_ret.
  - apply raises_bind; [apply Hb | by intros _].
Qed.

Lemma raises_if {A} (b : bool) (m1 m2 : M A) :
  raises P m1 -> raises P m2 -> raises P (if b then m1 else m2).
Proof. by destruct b. Qed.

End Raises.

Lemma raises_try_except_oserror {A} (m h : M A) :
  raises is_oserror m -> raises (fun _ => False) h ->
  raises (fun _ => False) (try_except_oserror m h).
Proof.
  intros Hm Hh st e. unfold try_except_oserror. specialize (Hm st).
  destruct (m st) as [[a | [msg | msg | msg] |] st1]; simpl in *; try done.
  - intros _. by apply (Hm (PatoolError msg)).
  - apply Hh.
  - intros _. by apply (Hm (OtherError msg)).
Qed.

(** * The methods *)

Section Methods.

Variable E : Env.

(** ** [test_archive] *)

Lemma test_archive_eq (osrc : option path) (o : Options) (st : State) :
  let s := default (src (self st)) osrc in
  let st1 := emit (CallIsArchive s) st in
  let st2 := emit (CallTestArchive s o) st1 in
  test_archive E osrc o st =
    if is_archive E (fs st) s then
      match probe E o s (fs st) with
      | None => (Ret true, st2)
      | Some (PatoolError msg) => (Ret false, emit (LogError (FailedTest s msg)) st2)
      | Some e => (Raise e, st2)
      end
    else (Ret false, emit (LogError (NotValidArchive s)) st1).
Proof.
  destruct osrc as [p |]; simpl;
    unfold test_archive, bind, arg_or_field, ret, patoolib_is_archive; simpl.
  all: destruct (is_archive E (fs st) _); simpl; [| done].
  all: unfold try_except_patool, bind, patoolib_test_archive; simpl.
  all: by destruct (probe E o _ (fs st)) as [[] |].
Qed.

Lemma test_archive_fueled (osrc : option path) (o : Options) (st : State) :
  (test_archive E osrc o st).1 <> OutOfFuel.
Proof.
  rewrite test_archive_eq.
  by destruct (is_archive E (fs st) _); [destruct (probe E o _ (fs st)) as [[] |] |].
Qed.

(** What leaves [test_archive] is what the probe raised, and no
    [PatoolError]. *)
Lemma test_archive_raises (osrc : option path) (o : Options) (st : State) (e : exn) :
  (test_archive E osrc o st).1 = Raise e ->
  probe E o (default (src (self st)) osrc) (fs st) = Some e /\ ~ is_patoolerror e.
Proof.
  rewrite test_archive_eq.
  destruct (is_archive E (fs st) _); [| done].
  destruct (probe E o _ (fs st)) as [[] |]; simpl; try done.
  all: intros [= <-]; split; [done | by intros []].
Qed.

Lemma test_archive_returns (osrc : option path) (o : Options) (st : State) :
  patool_only E -> exists b, (test_archive E osrc o st).1 = Ret b.
Proof.
  intros [Hp _].
  pose proof (test_archive_fueled osrc o st) as Hf.
  pose proof (test_archive_raises osrc o st) as Hr.
  destruct (test_archive E osrc o st).1 as [b | e |]; [by exists b | | done].
  destruct (Hr e eq_refl) as [He Hn]. by apply Hp in He.
Qed.

Lemma test_archive_same_fs osrc o : rel same_fs (test_archive E osrc o).
Proof.
  intros st. rewrite test_archive_eq.
  by destruct (is_archive E (fs st) _); [destruct (probe E o _ (fs st)) as [[] |] |].
Qed.

Lemma test_archive_same_self osrc o : rel same_self (test_archive E osrc o).
Proof.
  intros st. rewrite test_archive_eq.
  by destruct (is_archive E (fs st) _); [destruct (probe E o _ (fs st)) as [[] |] |].
Qed.

(** ** The two blocks of [extract] *)

Lemma extraction_attempt_eq (s d : path) (o : Options) (st : State) :
  extraction_attempt E s d o st =
    (attempt_outcome E s d o st, after_unpack E s d o st).
Proof.
  unfold extraction_attempt, try_except_patool, patoolib_extract_archive,
    after_unpack, attempt_outcome.
  simpl. by destruct (unpack E o s d (fs st)).2 as [[] |].
Qed.

Lemma attempt_outcome_fueled (s d : path) (o : Options) (st : State) :
  attempt_outcome E s d o st <> OutOfFuel.
Proof. unfold attempt_outcome. by destruct (unpack E o s d (fs st)).2 as [[] |]. Qed.

Lemma attempt_outcome_raises (s d : path) (o : Options) (st : State) (e : exn) :
  attempt_outcome E s d o st = Raise e ->
  (unpack E o s d (fs st)).2 = Some e /\ ~ is_patoolerror e.
Proof.
  unfold attempt_outcome. destruct (unpack E o s d (fs st)).2 as [[] |]; try done.
  all: intros [= <-]; split; [done | by intros []].
Qed.

Lemma attempt_outcome_returns (s d : path) (o : Options) (st : State) :
  (forall e, (unpack E o s d (fs st)).2 = Some e -> is_patoolerror e) ->
  attempt_outcome E s d o st = Ret tt.
Proof.
  intros Hp. unfold attempt_outcome.
  destruct (unpack E o s d (fs st)).2 as [[] |]; try done.
  all: by destruct (Hp _ eq_refl).
Qed.

Lemma raises_remove_auto_generated root ds fl :
  raises is_oserror (remove_auto_generated E root ds fl).
Proof.
  unfold remove_auto_generated.
  apply raises_bind; [| intros _]; apply raises_for_each; intros x.
  all: apply raises_bind; [by prim |].
  all: intros g; apply raises_if; [| by apply raises_ret].
  all: apply raises_bind; [by prim |].
  all: intros e; apply raises_if; [| by apply raises_ret].
  all: apply raises_bind; [| by intros _; prim].
  all: prim; by intros ? [= <-].
Qed.

Lemma raises_os_walk n : forall top,
  raises is_oserror (os_walk n top (remove_auto_generated E)).
Proof.
  induction n as [| n IH]; intros top st e; simpl.
  - by destruct (scandir (fs st) top) as [[ds fl] |].
  - destruct (scandir (fs st) top) as [[ds fl] |]; [| done].
    revert e. apply (raises_bind is_oserror).
    + apply raises_remove_auto_generated.
    + intros _. apply raises_for_each. intros d. apply IH.
Qed.

Lemma raises_cleanup_and_delete s d c :
  raises is_oserror (cleanup_and_delete E s d c).
Proof.
  unfold cleanup_and_delete. apply raises_bind.
  - intros st. apply raises_os_walk.
  - intros _. apply raises_if; [| by apply raises_ret].
    apply raises_bind; [by prim |].
    intros e; apply raises_if; [| by apply raises_ret].
    apply raises_bind; [| by intros _; prim].
    prim; by intros ? [= <-].
Qed.

Lemma cleanup_and_delete_fueled s d c st :
  (cleanup_and_delete E s d c st).1 <> OutOfFuel.
Proof.
  unfold cleanup_and_delete, bind.
  pose proof (walk_dst_fueled E d st) as Hw.
  destruct (walk_dst E d st) as [[[] | e |] st1]; simpl in *; try done.
  destruct c; [| done].
  unfold os_path_exists, os_remove, logger_info; simpl.
  destruct (path_exists (fs st1) s); [| done]. simpl.
  destruct (fs st1 !! s) as [[] |]; try done.
  by destruct (remove_denied E (fs st1) s).
Qed.

Lemma finalizer_returns s d c st : (finalizer E s d c st).1 = Ret tt.
Proof.
  unfold finalizer, try_except_oserror.
  pose proof (raises_cleanup_and_delete s d c st) as Hr.
  pose proof (cleanup_and_delete_fueled s d c st) as Hf.
  destruct (cleanup_and_delete E s d c st) as [[[] | [msg | msg | msg] |] st1];
    simpl in *; try done.
  - by destruct (Hr (PatoolError msg)).
  - by destruct (Hr (OtherError msg)).
Qed.

(** ** [extract] *)

Lemma extract_default (osrc odst : option path) (o : Options) (c : bool) (st : State) :
  extract E osrc odst o c st =
  extract E (Some (default (src (self st)) osrc)) (Some (default (dst (self st)) odst)) o c st.
Proof. by destruct osrc, odst. Qed.

Lemma extract_eq (osrc odst : option path) (o : Options) (c : bool) (st : State) :
  let s := default (src (self st)) osrc in
  let d := default (dst (self st)) odst in
  extract E osrc odst o c st =
    match test_archive E (Some s) o st with
    | (Ret true, st1) =>
        (attempt_outcome E s d o st1, (finalizer E s d c (after_unpack E s d o st1)).2)
    | (Ret false, st1) => (Ret tt, st1)
    | (Raise e, st1) => (Raise e, st1)
    | (OutOfFuel, st1) => (OutOfFuel, st1)
    end.
Proof.
  intros s d. rewrite extract_default. fold s d.
  unfold extract. simpl. unfold bind at 1 2. simpl. unfold bind at 1.
  destruct (test_archive E (Some s) o st) as [[[] | e |] st1]; simpl; try done.
  unfold try_finally; rewrite extraction_attempt_eq.
  pose proof (finalizer_returns s d c (after_unpack E s d o st1)) as Hf.
  pose proof (attempt_outcome_fueled s d o st1) as Ha.
  destruct (finalizer E s d c _) as [r st2]; simpl in *; subst r.
  by destruct (attempt_outcome E s d o st1).
Qed.

Lemma extract_fueled osrc odst o c st : (extract E osrc odst o c st).1 <> OutOfFuel.
Proof.
  rewrite extract_eq.
  pose proof (test_archive_fueled (Some (default (src (self st)) osrc)) o st) as Hf.
  destruct (test_archive E _ o st) as [[[] | e |] st1]; simpl in *; try done.
  apply attempt_outcome_fueled.
Qed.

(** What leaves [extract] is what the backend raised, and no
    [PatoolError]. *)
Lemma extract_raises osrc odst o c st e :
  (extract E osrc odst o c st).1 = Raise e -> ~ is_patoolerror e.
Proof.
  rewrite extract_eq.
  pose proof (test_archive_raises (Some (default (src (self st)) osrc)) o st) as Hr.
  destruct (test_archive E _ o st) as [[[] | e' |] st1]; simpl in *; try done.
  - intros Ha. by apply attempt_outcome_raises in Ha as [_ Hn].
  - intros [= <-]. by apply (Hr e').
Qed.

Lemma extract_returns osrc odst o c st :
  patool_only E -> (extract E osrc odst o c st).1 = Ret tt.
Proof.
  intros HE. rewrite extract_eq.
  pose proof (test_archive_returns (Some (default (src (self st)) osrc)) o st HE) as [b Hb].
  destruct (test_archive E _ o st) as [[[] | e |] st1]; simpl in *; try done.
  apply attempt_outcome_returns. intros e. apply HE.
Qed.

End Methods.

(** ** The trace only grows *)

#[global] Instance extends_preorder : PreOrder extends.
Proof.
  split; unfold extends.
  - by intros st.
  - intros st1 st2 st3 H12 H23. by etransitivity.
Qed.

Lemma extends_emit st e : extends st (emit e st).
Proof. unfold extends. simpl. by apply prefix_app_r. Qed.

Lemma extends_emit_fs st e f : extends st (set_fs f (emit e st)).
Proof. unfold extends. simpl. by apply prefix_app_r. Qed.

Section Extends.

Variable E : Env.

Local Ltac prim_trace :=
  prim; try apply extends_emit; try apply extends_emit_fs; try reflexivity.

Lemma extends_remove_auto_generated root ds fl :
  rel extends (remove_auto_generated E root ds fl).
Proof.
  unfold remove_auto_generated.
  apply rel_bind; [apply _ | |intros _]; apply rel_for_each; try apply _; intros x _.
  all: apply rel_bind; [apply _ | by prim_trace |].
  all: intros g; apply rel_if; [| by apply rel_ret, _].
  all: apply rel_bind; [apply _ | by prim_trace |].
  all: intros e; apply rel_if; [| by apply rel_ret, _].
  all: apply rel_bind; [apply _ | by prim_trace | by intros _; prim_trace].
Qed.

Lemma extends_os_walk n top : rel extends (os_walk n top (remove_auto_generated E)).
Proof.
  apply (rel_os_walk extends (fun _ => True)); try done.
  - intros; apply extends_emit.
  - intros. apply extends_remove_auto_generated.
Qed.

Lemma extends_cleanup_and_delete s d c : rel extends (cleanup_and_delete E s d c).
Proof.
  unfold cleanup_and_delete. apply rel_bind; [apply _ | |].
  - intros st. apply extends_os_walk.
  - intros _. apply rel_if; [| by apply rel_ret, _].
    apply rel_bind; [apply _ | by prim_trace |].
    intros e; apply rel_if; [| by apply rel_ret, _].
    apply rel_bind; [apply _ | by prim_trace | by intros _; prim_trace].
Qed.

Lemma extends_finalizer s d c : rel extends (finalizer E s d c).
Proof.
  apply rel_try_except_oserror; [apply _ | | by apply rel_ret, _].
  apply extends_cleanup_and_delete.
Qed.

Lemma bind_extends_first {A B} (m : M A) (f : A -> M B) st :
  (forall a, rel extends (f a)) -> extends (m st).2 (bind m f st).2.
Proof.
  intros Hf. unfold bind.
  destruct (m st) as [[a | e |] st1]; simpl; [apply Hf | done | done].
Qed.

Lemma finalizer_state s d c st :
  (finalizer E s d c st).2 = (cleanup_and_delete E s d c st).2.
Proof.
  unfold finalizer, try_except_oserror.
  by destruct (cleanup_and_delete E s d c st) as [[[] | [msg | msg | msg] |] st1].
Qed.

Lemma walk_dst_first_event d st :
  exists tl, trace (walk_dst E d st).2 = trace st ++ CallScandir d :: tl.
Proof.
  unfold walk_dst. simpl.
  destruct (scandir (fs st) d) as [[ds fl] |]; simpl; [| by exists []].
  match goal with |- context [bind ?m ?f ?s] =>
    destruct (rel_bind extends m f (extends_remove_auto_generated d ds fl)
      (fun _ => rel_for_each extends ds _
         (fun x _ => extends_os_walk (depth_bound (fs st)) (join d x))) s) as [tl Htl]
  end.
  exists tl. rewrite Htl. simpl. by rewrite <- app_assoc.
Qed.

Lemma finalizer_first_event s d c st :
  exists tl, trace (finalizer E s d c st).2 = trace st ++ CallScandir d :: tl.
Proof.
  rewrite finalizer_state.
  destruct (walk_dst_first_event d st) as [tl Hw].
  unfold cleanup_and_delete.
  match goal with |- context [bind ?m ?f st] =>
    assert (extends (m st).2 (bind m f st).2) as [tl' Htl']
  end.
  { apply bind_extends_first. intros _. apply rel_if; [| by apply rel_ret, _].
    apply rel_bind; [apply _ | by prim_trace |].
    intros e; apply rel_if; [| by apply rel_ret, _].
    apply rel_bind; [apply _ | by prim_trace | by intros _; prim_trace]. }
  exists (tl ++ tl'). rewrite Htl', Hw, <- app_assoc. done.
Qed.

End Extends.

(** * Validation *)

(** C5: [test_archive] returns a boolean, unless the probe raises an
    exception that is no [PatoolError], which it lets through; the boolean is
    [true] exactly when [patoolib.is_archive] accepts the path and
    [patoolib.test_archive] then succeeds.  When [is_archive] accepts, the
    probe is called once with the options given; when it refuses, the result
    is [false] and the only events are the [is_archive] call and the error
    record: the probe is not called. *)
Theorem test_archive_two_phases (E : Env) (osrc : option path) (o : Options) (st : State) :
  let s := default (src (self st)) osrc in
  let r := test_archive E osrc o st in
  ((exists b, r.1 = Ret b) \/
   (exists e, is_archive E (fs st) s = true /\ probe E o s (fs st) = Some e /\
              ~ is_patoolerror e /\ r.1 = Raise e)) /\
  (r.1 = Ret true <-> is_archive E (fs st) s = true /\ probe E o s (fs st) = None) /\
  (is_archive E (fs st) s = true ->
     exists tl, trace r.2 = trace st ++ CallIsArchive s :: CallTestArchive s o :: tl
                /\ forall p o', CallTestArchive p o' ∉ tl) /\
  (is_archive E (fs st) s = false ->
     r.1 = Ret false /\
     trace r.2 = trace st ++ [CallIsArchive s; LogError (NotValidArchive s)]).
Proof.
  intros s r. subst r. rewrite test_archive_eq. fold s.
  destruct (is_archive E (fs st) s) eqn:Ha.
  - destruct (probe E o s (fs st)) as [[msg | msg | msg] |] eqn:Hp; simpl.
    + split; [by left; eexists |].
      split; [split; [done | by intros [_ ?]] |]. split; [| done].
      intros _. exists [LogError (FailedTest s msg)].
      rewrite <- !app_assoc. split; [done |].
      intros p o' Hin. by rewrite list_elem_of_singleton in Hin.
    + split; [right; exists (OSError msg); repeat split; by try intros [] |].
      split; [split; [done | by intros [_ ?]] |]. split; [| done].
      intros _. exists []. rewrite <- !app_assoc. split; [done |].
      intros p o' Hin. by rewrite elem_of_nil in Hin.
    + split; [right; exists (OtherError msg); repeat split; by try intros [] |].
      split; [split; [done | by intros [_ ?]] |]. split; [| done].
      intros _. exists []. rewrite <- !app_assoc. split; [done |].
      intros p o' Hin. by rewrite elem_of_nil in Hin.
    + split; [by left; eexists |]. split; [done |]. split; [| done].
      intros _. exists []. rewrite <- !app_assoc. split; [done |].
      intros p o' Hin. by rewrite elem_of_nil in Hin.
  - simpl. split; [by left; eexists |].
    split; [split; [done | by intros [? _]] |]. split; [done |].
    intros _. split; [done |]. by rewrite <- !app_assoc.
Qed.

Lemma test_archive_two_phases_witness :
  is_archive demo_env (fs (demo_state demo_fs)) ["d"; "notes.txt"] = false /\
  (test_archive demo_env (Some ["d"; "notes.txt"]) demo_options (demo_state demo_fs)).1
    = Ret false.
Proof.
  split; [reflexivity |].
  apply (test_archive_two_phases demo_env (Some ["d"; "notes.txt"]) demo_options
           (demo_state demo_fs)).
  reflexivity.
Defined.

(** * The instance fields *)

Section Fields.

Variable E : Env.

Local Ltac prim_self := prim; unfold same_self; simpl; try reflexivity.

Lemma same_self_remove_auto_generated root ds fl :
  rel same_self (remove_auto_generated E root ds fl).
Proof.
  unfold remove_auto_generated.
  apply rel_bind; [apply _ | |intros _]; apply rel_for_each; try apply _; intros x _.
  all: apply rel_bind; [apply _ | by prim_self |].
  all: intros g; apply rel_if; [| by apply rel_ret, _].
  all: apply rel_bind; [apply _ | by prim_self |].
  all: intros e; apply rel_if; [| by apply rel_ret, _].
  all: apply rel_bind; [apply _ | by prim_self | by intros _; prim_self].
Qed.

Lemma same_self_finalizer s d c : rel same_self (finalizer E s d c).
Proof.
  apply rel_try_except_oserror; [apply _ | | by apply rel_ret, _].
  unfold cleanup_and_delete. apply rel_bind; [apply _ | |].
  - intros st. apply (rel_os_walk same_self (fun _ => True)); try done.
    intros. apply same_self_remove_auto_generated.
  - intros _. apply rel_if; [| by apply rel_ret, _].
    apply rel_bind; [apply _ | by prim_self |].
    intros e; apply rel_if; [| by apply rel_ret, _].
    apply rel_bind; [apply _ | by prim_self | by intros _; prim_self].
Qed.

Lemma same_self_extract osrc odst o c : rel same_self (extract E osrc odst o c).
Proof.
  unfold extract.
  apply rel_bind; [apply _ | by destruct osrc; prim_self |]. intros s.
  apply rel_bind; [apply _ | by destruct odst; prim_self |]. intros d.
  apply rel_bind; [apply _ | apply test_archive_same_self |].
  intros ok. apply rel_if; [by apply rel_ret, _ |].
  apply rel_try_finally; [apply _ | | apply same_self_finalizer].
  apply rel_try_except_patool; [apply _ | by prim_self | by intros msg; prim_self].
Qed.

Lemma same_self_extractall o c :
  forall fuel osrc odst, rel same_self (extractall E fuel osrc odst o c).
Proof.
  induction fuel as [| n IH]; intros osrc odst; simpl; [by prim_self |].
  apply rel_bind; [apply _ | by destruct osrc; prim_self |]. intros s.
  apply rel_bind; [apply _ | by destruct odst; prim_self |]. intros d.
  apply rel_bind; [apply _ | apply same_self_extract |]. intros _.
  apply rel_bind; [apply _ | by prim_self |].
  intros ex. apply rel_if; [by apply rel_ret, _ |].
  apply rel_bind; [apply _ | by prim_self |].
  intros isd. apply rel_if; [by apply rel_ret, _ |].
  apply rel_bind; [apply _ | by prim_self |].
  intros files. apply rel_for_each; [apply _ |]. intros file _.
  apply rel_bind; [apply _ | by prim_self |].
  intros a. apply rel_if; [apply IH | by apply rel_ret, _].
Qed.

End Fields.

(** C10: the fields [src] and [dst] written by [__init__] are only read, and
    only for an argument that is [None]; after [test_archive], [extract] or a
    whole recursive [extractall] they hold what the constructor stored. *)
Theorem instance_fields_are_read_only (E : Env) (s0 d0 : path)
    (osrc odst : option path) (o : Options) (c : bool) (fuel : nat) (st0 : State) :
  let st := (init s0 d0 st0).2 in
  self st = mkArchExtractor s0 d0 /\
  self (test_archive E osrc o st).2 = mkArchExtractor s0 d0 /\
  self (extract E osrc odst o c st).2 = mkArchExtractor s0 d0 /\
  self (extractall E fuel osrc odst o c st).2 = mkArchExtractor s0 d0 /\
  test_archive E None o st = test_archive E (Some s0) o st /\
  extract E None None o c st = extract E (Some s0) (Some d0) o c st /\
  extractall E fuel None None o c st = extractall E fuel (Some s0) (Some d0) o c st.
Proof.
  intros st. split; [done |].
  split; [apply test_archive_same_self |].
  split; [apply same_self_extract |].
  split; [apply same_self_extractall |].
  split; [done |]. split; [done |]. by destruct fuel.
Qed.

(** * Validation failure *)

(** C3: when validation returns [false], [extract] returns at once: the
    file system and the instance are as before the call, and the only events
    are those of the validation itself, so there is no backend extraction, no
    walk over the destination and no deletion, whatever [cleanup] is. *)
Theorem invalid_archive_is_left_alone (E : Env) (osrc odst : option path)
    (o : Options) (c : bool) (st : State) :
  let s := default (src (self st)) osrc in
  (test_archive E (Some s) o st).1 = Ret false ->
  let r := extract E osrc odst o c st in
  r = (Ret tt, (test_archive E (Some s) o st).2) /\
  fs r.2 = fs st /\ self r.2 = self st /\
  exists evs, trace r.2 = trace st ++ evs /\ Forall validation_event evs.
Proof.
  intros s Ht r. subst r. rewrite extract_eq. fold s.
  revert Ht. rewrite test_archive_eq. simpl.
  destruct (is_archive E (fs st) s);
    [destruct (probe E o s (fs st)) as [[msg | msg | msg] |] |];
    simpl; try done; intros _.
  - repeat split. exists [CallIsArchive s; CallTestArchive s o; LogError (FailedTest s msg)].
    rewrite <- !app_assoc. split; [done |]. by repeat constructor.
  - repeat split. exists [CallIsArchive s; LogError (NotValidArchive s)].
    rewrite <- !app_assoc. split; [done |]. by repeat constructor.
Qed.

Lemma invalid_archive_is_left_alone_witness :
  let st := demo_state demo_fs in
  fs (extract demo_env (Some ["d"; "corrupt.zip"]) (Some ["d"]) demo_options true st).2
  = fs st.
Proof.
  intros st.
  pose proof (invalid_archive_is_left_alone demo_env (Some ["d"; "corrupt.zip"])
                (Some ["d"]) demo_options true st) as H.
  simpl default in H.
  destruct H as (_ & H & _); [vm_compute; reflexivity | exact H].
Defined.

(** * Recursive descent *)

Lemma descend_cons (E : Env) (n : nat) (dir : path) (o : Options) (c : bool)
    (file : string) (files : list string) (st : State) :
  descend E n dir o c (file :: files) st =
    let st' := emit (CallIsArchive (join dir file)) st in
    if is_archive E (fs st) (join dir file)
    then (extractall E n (Some (join dir file)) (Some dir) o c ;;;
          descend E n dir o c files) st'
    else descend E n dir o c files st'.
Proof.
  unfold descend. simpl. unfold bind at 1 2. simpl.
  by destruct (is_archive E (fs st) (join dir file)).
Qed.

(** C4: after the extraction of the source, [extractall] looks at
    [dst/stem(src)].  If that is not an existing directory it returns with the
    file system [extract] left and without listing anything; otherwise it
    lists the directory once and goes through its direct children in order:
    a child that [is_archive] accepts is given to [extractall] with the
    output directory as destination and the same options and [cleanup], any
    other child only costs the [is_archive] call.  An exception that leaves
    [extract] leaves [extractall] at once. *)
Theorem extractall_descends_into_output (E : Env) (n : nat)
    (osrc odst : option path) (o : Options) (c : bool) (st : State) :
  let s := default (src (self st)) osrc in
  let d := default (dst (self st)) odst in
  let r := extract E (Some s) (Some d) o c st in
  let st1 := r.2 in
  let extract_dir := join d (splitext_root (basename s)) in
  (r.1 = Ret tt -> path_isdir (fs st1) extract_dir = false ->
     exists st', extractall E (S n) osrc odst o c st = (Ret tt, st') /\
       fs st' = fs st1 /\
       trace st' = trace st1 ++ CallExists extract_dir ::
                     (if path_exists (fs st1) extract_dir
                      then [CallIsdir extract_dir] else [])) /\
  (r.1 = Ret tt -> path_isdir (fs st1) extract_dir = true ->
     extractall E (S n) osrc odst o c st =
       descend E n extract_dir o c (listdir (fs st1) extract_dir)
         (emit (CallListdir extract_dir)
            (emit (CallIsdir extract_dir) (emit (CallExists extract_dir) st1)))) /\
  (forall e, r.1 = Raise e -> extractall E (S n) osrc odst o c st = (Raise e, st1)) /\
  (forall file, file ∈ listdir (fs st1) extract_dir <->
                is_Some (fs st1 !! join extract_dir file)) /\
  (forall file files st2,
     is_archive E (fs st2) (join extract_dir file) = false ->
     descend E n extract_dir o c (file :: files) st2 =
     descend E n extract_dir o c files (emit (CallIsArchive (join extract_dir file)) st2)) /\
  (forall file files st2,
     is_archive E (fs st2) (join extract_dir file) = true ->
     descend E n extract_dir o c (file :: files) st2 =
     (extractall E n (Some (join extract_dir file)) (Some extract_dir) o c ;;;
      descend E n extract_dir o c files)
       (emit (CallIsArchive (join extract_dir file)) st2)).
Proof.
  intros s d r st1 extract_dir.
  assert (extractall E (S n) osrc odst o c st =
          (extract E (Some s) (Some d) o c ;;;
           e <- os_path_exists extract_dir ;;
           if negb e then ret tt
           else isd <- os_path_isdir extract_dir ;;
                if negb isd then ret tt
                else files <- os_listdir extract_dir ;;
                     descend E n extract_dir o c files) st) as Heq.
  { transitivity (extractall E (S n) (Some s) (Some d) o c st);
      [by destruct osrc, odst |]. done. }
  unfold bind at 1 in Heq. fold r in Heq.
  split; [| split; [| split; [| split; [| split]]]].
  - intros Hr Hd. rewrite Heq. subst st1. destruct r as [r' st1]. simpl in *. subst r'.
    unfold bind, os_path_exists, os_path_isdir. simpl.
    destruct (path_exists (fs st1) extract_dir); simpl.
    + rewrite Hd. simpl. eexists. split; [done |]. split; [done |].
      simpl. by rewrite <- app_assoc.
    + eexists. split; [done |]. by split.
  - intros Hr Hd. rewrite Heq. subst st1. destruct r as [r' st1]. simpl in *. subst r'.
    unfold bind, os_path_exists, os_path_isdir, os_listdir. simpl.
    assert (path_exists (fs st1) extract_dir = true) as ->.
    { apply path_exists_lookup. apply path_isdir_lookup in Hd. by rewrite Hd. }
    simpl. by rewrite Hd.
  - intros e Hr. rewrite Heq. subst st1. destruct r as [r' st1]. simpl in *. by subst r'.
  - intros file. apply elem_of_listdir.
  - intros file files st2 Ha. by rewrite descend_cons, Ha.
  - intros file files st2 Ha. by rewrite descend_cons, Ha.
Qed.

Lemma extractall_descends_into_output_witness :
  let st := demo_state demo_fs in
  let st1 := (extract demo_env (Some ["d"; "outer.zip"]) (Some ["d"]) demo_options false st).2 in
  extractall demo_env 3 (Some ["d"; "outer.zip"]) (Some ["d"]) demo_options false st =
  descend demo_env 2 ["d"; "outer"] demo_options false (listdir (fs st1) ["d"; "outer"])
    (emit (CallListdir ["d"; "outer"])
       (emit (CallIsdir ["d"; "outer"]) (emit (CallExists ["d"; "outer"]) st1))).
Proof.
  intros st st1.
  pose proof (extractall_descends_into_output demo_env 2 (Some ["d"; "outer.zip"])
                (Some ["d"]) demo_options false st) as H.
  destruct H as (_ & H & _).
  apply H; vm_compute; reflexivity.
Defined.

(** * A refused deletion *)

Lemma stops_ret {A} (a : A) : stops_at_deletion (ret a).
Proof. by intros st e st'. Qed.

Lemma stops_bind {A B} (m : M A) (f : A -> M B) :
  stops_at_deletion m -> (forall a, stops_at_deletion (f a)) ->
  stops_at_deletion (bind m f).
Proof.
  intros Hm Hf st e st'. unfold bind. specialize (Hm st).
  destruct (m st) as [[a | e' |] st1]; simpl; [apply Hf | | done].
  intros [= -> ->]. by eapply Hm.
Qed.

Lemma stops_for_each {A} (l : list A) (body : A -> M unit) :
  (forall x, stops_at_deletion (body x)) -> stops_at_deletion (for_each l body).
Proof.
  intros Hb. induction l as [| x l IH]; simpl.
  - apply stops_ret.
  - apply stops_bind; [apply Hb | by intros _].
Qed.

Lemma stops_if {A} (b : bool) (m1 m2 : M A) :
  stops_at_deletion m1 -> stops_at_deletion m2 ->
  stops_at_deletion (if b then m1 else m2).
Proof. by destruct b. Qed.

Section Refused.

Variable E : Env.

Lemma stops_rmtree p : stops_at_deletion (shutil_rmtree E p).
Proof.
  prim; intros e st' [= <- <-]. simpl. rewrite last_snoc. by eexists.
Qed.

Lemma stops_remove p : stops_at_deletion (os_remove E p).
Proof.
  prim; intros e st' [= <- <-]; simpl; rewrite last_snoc; by eexists.
Qed.

Lemma stops_remove_auto_generated root ds fl :
  stops_at_deletion (remove_auto_generated E root ds fl).
Proof.
  unfold remove_auto_generated.
  apply stops_bind; [| intros _]; apply stops_for_each; intros x.
  all: apply stops_bind; [by prim |].
  all: intros g; apply stops_if; [| by apply stops_ret].
  all: apply stops_bind; [by prim |].
  all: intros e; apply stops_if; [| by apply stops_ret].
  all: apply stops_bind; [| by intros _; prim].
  - apply stops_rmtree.
  - apply stops_remove.
Qed.

Lemma stops_os_walk n : forall top,
  stops_at_deletion (os_walk n top (remove_auto_generated E)).
Proof.
  induction n as [| n IH]; intros top st e st'; simpl.
  - by destruct (scandir (fs st) top) as [[ds fl] |].
  - destruct (scandir (fs st) top) as [[ds fl] |]; [| done].
    revert e st'. apply stops_bind.
    + apply stops_remove_auto_generated.
    + intros _. apply stops_for_each. intros d. apply IH.
Qed.

End Refused.

(** C9: when a deletion of the walk raises [OSError], [extract] ends in the
    very state in which the walk stopped, and ends as the [try] block did:
    it returns normally, unless the backend had raised an exception that is no
    [PatoolError].  The last event is the refused deletion, so no further
    entry is examined, nothing is logged and the source is not deleted,
    whatever [cleanup] is. *)
Theorem oserror_in_walk_skips_the_rest (E : Env) (osrc odst : option path)
    (o : Options) (c : bool) (st st1 st3 : State) (msg : string) :
  let s := default (src (self st)) osrc in
  let d := default (dst (self st)) odst in
  test_archive E (Some s) o st = (Ret true, st1) ->
  walk_dst E d (after_unpack E s d o st1) = (Raise (OSError msg), st3) ->
  extract E osrc odst o c st = (attempt_outcome E s d o st1, st3) /\
  (exists ev, last (trace st3) = Some ev /\ is_deletion ev) /\
  (forall k, fs st3 !! s = Some k -> fs (extract E osrc odst o c st).2 !! s = Some k).
Proof.
  intros s d Ht Hw.
  assert (extract E osrc odst o c st = (attempt_outcome E s d o st1, st3)) as He.
  { rewrite extract_eq. fold s d. rewrite Ht. rewrite finalizer_state.
    unfold cleanup_and_delete, bind. by rewrite Hw. }
  split; [done |]. split; [| by rewrite He].
  unfold walk_dst in Hw. by eapply stops_os_walk.
Qed.

Lemma oserror_in_walk_skips_the_rest_witness :
  let st := demo_state locked_fs in
  let r := extract demo_env (Some ["d"; "outer.zip"]) (Some ["d"]) demo_options true st in
  r.1 = Ret tt /\ fs r.2 !! ["d"; "outer.zip"] = Some File /\
  last (trace r.2) = Some (CallRmtree ["d"; "__MACOSX"]).
Proof.
  intros st r.
  pose proof (oserror_in_walk_skips_the_rest demo_env (Some ["d"; "outer.zip"])
                (Some ["d"]) demo_options true st
                (test_archive demo_env (Some ["d"; "outer.zip"]) demo_options st).2
                r.2 "rmtree") as H.
  simpl default in H.
  destruct H as (H1 & _ & _); [vm_compute; reflexivity | vm_compute; reflexivity |].
  split; [refine (eq_trans (f_equal fst H1) _) |]; vm_compute; by try split.
Defined.

(** * What the walk removes *)

#[global] Instance frame_preorder (C : path -> Prop) : PreOrder (frame C).
Proof.
  split; unfold frame.
  - by intros st q.
  - intros st1 st2 st3 H12 H23 q Hq. by rewrite H23, H12.
Qed.

Lemma frame_emit C st e : frame C st (emit e st).
Proof. by intros q. Qed.

Lemma prefix_join (r : path) (x : string) : r `prefix_of` join r x.
Proof. by apply prefix_app_r. Qed.

Lemma join_ne (r : path) (x : string) : join r x <> r.
Proof.
  unfold join. intros H. apply (f_equal length) in H.
  rewrite length_app in H. simpl in H. lia.
Qed.

Lemma artifact_above_join (E : Env) (top r : path) (x : string) (q : path) :
  top `prefix_of` r -> is_auto_generated E (join r x) = true ->
  join r x `prefix_of` q -> artifact_above E top q.
Proof.
  intros Hr Hg Hq. exists (join r x). repeat split; try done.
  - etransitivity; [exact Hr | apply prefix_join].
  - intros Heq. apply prefix_length in Hr.
    apply (f_equal length) in Heq. unfold join in Heq.
    rewrite length_app in Heq. simpl in Heq. lia.
Qed.

Section Frame.

Variable E : Env.

Lemma remove_auto_generated_steps root ds fl :
  remove_auto_generated E root ds fl =
  (for_each ds (dir_step E root) ;;; for_each fl (file_step E root)).
Proof. reflexivity. Qed.

(** What a step does, as a function of the state. *)
Lemma dir_step_eq root dir st :
  let p := join root dir in
  let st1 := emit (CallIsAutoGenerated p) st in
  let st2 := emit (CallExists p) st1 in
  let st3 := emit (CallRmtree p) st2 in
  dir_step E root dir st =
    if is_auto_generated E p then
      if path_exists (fs st) p then
        if path_isdir (fs st) p && negb (rmtree_denied E (fs st) p)
        then (Ret tt, emit (LogInfo (RemovedAutoGenerated p)) (set_fs (rmtree p (fs st)) st3))
        else (Raise (OSError "rmtree"), set_fs (rmtree_stopped E p (fs st)) st3)
      else (Ret tt, st2)
    else (Ret tt, st1).
Proof.
  simpl. unfold dir_step, bind, utils_is_auto_generated, os_path_exists,
    shutil_rmtree, logger_info. simpl.
  destruct (is_auto_generated E (join root dir)); simpl; [| done].
  destruct (path_exists (fs st) (join root dir)); simpl; [| done].
  by destruct (path_isdir (fs st) (join root dir) && _).
Qed.

Lemma file_step_eq root file st :
  let p := join root file in
  let st1 := emit (CallIsAutoGenerated p) st in
  let st2 := emit (CallExists p) st1 in
  let st3 := emit (CallRemove p) st2 in
  file_step E root file st =
    if is_auto_generated E p then
      if path_exists (fs st) p then
        match fs st !! p with
        | Some File =>
            if remove_denied E (fs st) p then (Raise (OSError "remove"), st3)
            else (Ret tt, emit (LogInfo (RemovedAutoGenerated p))
                            (set_fs (delete p (fs st)) st3))
        | _ => (Raise (OSError "remove"), st3)
        end
      else (Ret tt, st2)
    else (Ret tt, st1).
Proof.
  simpl. unfold file_step, bind, utils_is_auto_generated, os_path_exists,
    os_remove, logger_info. simpl.
  destruct (is_auto_generated E (join root file)); simpl; [| done].
  destruct (path_exists (fs st) (join root file)); simpl; [| done].
  destruct (fs st !! join root file) as [[] |]; simpl; try done.
  by destruct (remove_denied E (fs st) (join root file)).
Qed.

(** A step changes nothing outside the entry it is about, and nothing at all
    when the entry is not auto-generated. *)
Lemma dir_step_frame root dir :
  rel (frame (fun q => is_auto_generated E (join root dir) = true /\
                       join root dir `prefix_of` q)) (dir_step E root dir).
Proof.
  intros st. rewrite dir_step_eq.
  destruct (is_auto_generated E (join root dir)) eqn:Hg; [| by intros q].
  destruct (path_exists (fs st) (join root dir)); [| by intros q].
  destruct (path_isdir (fs st) (join root dir) && _); intros q Hq; simpl.
  - rewrite rmtree_lookup.
    destruct (decide (join root dir `prefix_of` q)); [| done].
    by destruct Hq.
  - apply rmtree_stopped_lookup. intros [Hp _]. by apply Hq.
Qed.

Lemma file_step_frame root file :
  rel (frame (fun q => is_auto_generated E (join root file) = true /\
                       join root file `prefix_of` q)) (file_step E root file).
Proof.
  intros st. rewrite file_step_eq.
  destruct (is_auto_generated E (join root file)) eqn:Hg; [| by intros q].
  destruct (path_exists (fs st) (join root file)); [| by intros q].
  destruct (fs st !! join root file) as [[] |]; try by intros q.
  destruct (remove_denied E (fs st) (join root file)); [by intros q |].
  intros q Hq. simpl. apply lookup_delete_ne. intros <-. by destruct Hq.
Qed.

Lemma frame_weaken (C C' : path -> Prop) {A} (m : M A) :
  (forall q, C q -> C' q) -> rel (frame C) m -> rel (frame C') m.
Proof. intros HC Hm st q Hq. apply Hm. intros Hc. by apply Hq, HC. Qed.

(** The body changes nothing outside the auto-generated entries of [root]. *)
Lemma remove_auto_generated_frame root ds fl :
  rel (frame (fun q => exists x, is_auto_generated E (join root x) = true /\
                                 join root x `prefix_of` q))
      (remove_auto_generated E root ds fl).
Proof.
  rewrite remove_auto_generated_steps.
  apply rel_bind; [apply _ | | intros _]; apply rel_for_each; try apply _; intros x _.
  - eapply frame_weaken; [| apply dir_step_frame]. intros q Hq. by exists x.
  - eapply frame_weaken; [| apply file_step_frame]. intros q Hq. by exists x.
Qed.

(** The walk from [top] changes nothing outside the auto-generated paths
    strictly below [top]. *)
Lemma os_walk_frame n top :
  rel (frame (artifact_above E top)) (os_walk n top (remove_auto_generated E)).
Proof.
  apply (rel_os_walk (frame (artifact_above E top)) (fun r => top `prefix_of` r)).
  - intros; apply frame_emit.
  - intros r d Hr. etransitivity; [exact Hr | apply prefix_join].
  - intros r ds fl Hr. eapply frame_weaken; [| apply remove_auto_generated_frame].
    intros q [x [Hg Hq]]. by eapply artifact_above_join.
  - done.
Qed.

End Frame.

Lemma artifact_aboveb_false (E : Env) (top q : path) :
  artifact_aboveb E top q = false -> ~ artifact_above E top q.
Proof.
  intros Hb (p & Htp & Hne & Hpq & Hg).
  assert (artifact_aboveb E top q = true) as Ht; [| congruence].
  unfold artifact_aboveb. apply existsb_exists. exists (length p). split.
  - apply in_seq. pose proof (prefix_length _ _ Htp) as H1.
    pose proof (prefix_length _ _ Hpq) as H2.
    assert (length top <> length p) as H3.
    { intros Hl. apply Hne. destruct Htp as [k ->].
      rewrite length_app in Hl. destruct k; [by rewrite app_nil_r | simpl in Hl; lia]. }
    lia.
  - destruct Hpq as [k ->]. by rewrite take_app_length.
Qed.

(** * Deletion of the source *)

(** C6, as stated, fails: a source that lies under the destination inside a
    directory that [is_auto_generated] accepts is removed by the walk of the
    finalizer although [cleanup] is [False]. *)
Lemma source_removed_by_walk_without_cleanup : ~ source_kept_without_cleanup.
Proof.
  intros H.
  specialize (H demo_env ["d"; "__MACOSX"; "outer.zip"] ["d"] demo_options
                (demo_state macosx_fs)
                (test_archive demo_env (Some ["d"; "__MACOSX"; "outer.zip"]) demo_options
                   (demo_state macosx_fs)).2).
  assert (forall (f : FS) (q : path), f !! q = None -> ~ is_Some (f !! q)) as Hn.
  { intros f q -> [k Hk]. discriminate. }
  eapply Hn; [| apply H].
  - vm_compute. reflexivity.
  - vm_compute. reflexivity.
  - vm_compute. by eexists.
Qed.

(** C6, amended: the walk of the finalizer keeps every path that is not at or
    below an auto-generated path of the destination subtree; without
    [cleanup] nothing happens after the walk, so a source outside such paths
    is as the backend left it; and the source differs from what the walk left
    only by the deletion step, which needs [cleanup], a walk that ended
    normally and a source that is still there, and which touches no other
    path. *)
Theorem source_deletion_is_guarded (E : Env) (osrc odst : option path)
    (o : Options) (c : bool) (st st1 : State) :
  let s := default (src (self st)) osrc in
  let d := default (dst (self st)) odst in
  test_archive E (Some s) o st = (Ret true, st1) ->
  let st2 := after_unpack E s d o st1 in
  let w := walk_dst E d st2 in
  let r := extract E osrc odst o c st in
  (forall q, ~ artifact_above E d q -> fs w.2 !! q = fs st2 !! q) /\
  (c = false -> r.2 = w.2) /\
  (c = false -> ~ artifact_above E d s -> fs r.2 !! s = fs st2 !! s) /\
  (fs r.2 !! s <> fs w.2 !! s ->
     c = true /\ w.1 = Ret tt /\ fs w.2 !! s = Some File /\ fs r.2 !! s = None /\
     last (trace r.2) = Some (LogInfo (RemovedCleanup s))) /\
  (forall q, q <> s -> fs r.2 !! q = fs w.2 !! q).
Proof.
  intros s d Ht st2 w r.
  assert (forall q, ~ artifact_above E d q -> fs w.2 !! q = fs st2 !! q) as Hw.
  { intros q Hq. subst w. unfold walk_dst. by apply os_walk_frame. }
  assert (r.2 = (cleanup_and_delete E s d c st2).2) as Hr.
  { subst r. rewrite extract_eq. fold s d. rewrite Ht. simpl. apply finalizer_state. }
  assert (c = false -> r.2 = w.2) as Hf.
  { intros ->. rewrite Hr. unfold cleanup_and_delete, bind. fold w.
    by destruct w as [[[] | e |] st3]. }
  split; [done |]. split; [done |]. split.
  { intros Hc Hs. rewrite (Hf Hc). by apply Hw. }
  destruct c; [| split; [by rewrite (Hf eq_refl) | by rewrite (Hf eq_refl)]].
  clear Hf. rewrite Hr. unfold cleanup_and_delete, bind. fold w.
  destruct w as [[[] | e |] st3]; simpl; [| done | done].
  unfold os_path_exists, os_remove, logger_info; simpl.
  destruct (path_exists (fs st3) s); simpl; [| done].
  destruct (fs st3 !! s) as [[] |] eqn:Hs; simpl; try done.
  destruct (remove_denied E (fs st3) s); simpl; [by rewrite Hs |].
  split.
  - intros _. repeat split; try done.
    + apply lookup_delete_eq.
    + by rewrite last_snoc.
  - intros q Hq. by apply lookup_delete_ne.
Qed.

Lemma source_deletion_is_guarded_witness :
  let st := demo_state demo_fs in
  fs (extract demo_env (Some ["d"; "outer.zip"]) (Some ["d"]) demo_options false st).2
    !! ["d"; "outer.zip"] = Some File.
Proof.
  intros st.
  pose proof (source_deletion_is_guarded demo_env (Some ["d"; "outer.zip"])
                (Some ["d"]) demo_options false st
                (test_archive demo_env (Some ["d"; "outer.zip"]) demo_options st).2) as H.
  simpl default in H.
  destruct H as (_ & _ & H & _); [vm_compute; reflexivity |].
  etransitivity; [apply H |].
  - reflexivity.
  - apply artifact_aboveb_false. vm_compute. reflexivity.
  - vm_compute. reflexivity.
Defined.

(** * What the walk examines *)

Lemma emitted_mono e st0 st st' st1 :
  extends st0 st -> emitted e st st' -> extends st' st1 -> emitted e st0 st1.
Proof.
  intros [a Ha] (l1 & l2 & He) [b Hb].
  exists (a ++ l1), (l2 ++ b). rewrite Hb, He, Ha.
  by rewrite <- !app_assoc.
Qed.

Lemma in_subtree_root f top q : in_subtree f top q -> f !! top = Some Dir.
Proof. by destruct 1. Qed.

Lemma in_subtree_below f top q :
  in_subtree f top q -> top `prefix_of` q /\ q <> top.
Proof.
  induction 1 as [top n Ht Hn | top n q Ht Hq [IH1 IH2]].
  - split; [apply prefix_join | apply join_ne].
  - split.
    + etransitivity; [apply prefix_join | exact IH1].
    + intros ->. apply prefix_length in IH1. unfold join in IH1.
      rewrite length_app in IH1. simpl in IH1. lia.
Qed.

Lemma in_subtree_ext f f' top q :
  (forall q', top `prefix_of` q' -> f' !! q' = f !! q') ->
  in_subtree f top q -> in_subtree f' top q.
Proof.
  intros Hext Hin. revert Hext.
  induction Hin as [top n Ht Hn | top n q Ht Hq IH]; intros Hext.
  - apply in_subtree_child.
    + by rewrite Hext.
    + rewrite Hext; [done | apply prefix_join].
  - apply (in_subtree_deeper _ top n).
    + by rewrite Hext.
    + apply IH. intros q' Hq'. apply Hext.
      etransitivity; [apply prefix_join | exact Hq'].
Qed.

Lemma join_prefix_inj (r : path) (x y : string) (q : path) :
  join r x `prefix_of` q -> join r y `prefix_of` q -> x = y.
Proof.
  unfold join. intros [k1 ->] [k2 H].
  rewrite <- !app_assoc in H. apply app_inv_head in H. by inversion H.
Qed.

Lemma bind_Ret_inv {A B} (m : M A) (f : A -> M B) st b st' :
  bind m f st = (Ret b, st') ->
  exists a st1, m st = (Ret a, st1) /\ f a st1 = (Ret b, st').
Proof.
  unfold bind. destruct (m st) as [[a | e |] st1]; [| done | done].
  intros H. by exists a, st1.
Qed.

Lemma for_each_app {A} (l1 l2 : list A) (body : A -> M unit) st :
  for_each (l1 ++ l2) body st = (for_each l1 body ;;; for_each l2 body) st.
Proof.
  revert st. induction l1 as [| x l1 IH]; intros st; simpl.
  - unfold bind, ret. done.
  - unfold bind. destruct (body x st) as [[[] | e |] st1]; [| done | done].
    rewrite IH. reflexivity.
Qed.

Lemma for_each_Ret_split {A} (l1 l2 : list A) (x : A) (body : A -> M unit) st st' :
  for_each (l1 ++ x :: l2) body st = (Ret tt, st') ->
  exists sta stb, for_each l1 body st = (Ret tt, sta) /\
                  body x sta = (Ret tt, stb) /\
                  for_each l2 body stb = (Ret tt, st').
Proof.
  rewrite for_each_app. intros H.
  apply bind_Ret_inv in H as ([] & sta & H1 & H2). simpl in H2.
  apply bind_Ret_inv in H2 as ([] & stb & H2 & H3).
  by exists sta, stb.
Qed.

Lemma scandir_dir (f : FS) (top : path) :
  f !! top = Some Dir -> exists ds fl, scandir f top = Some (ds, fl).
Proof.
  intros H. unfold scandir. apply path_isdir_lookup in H. rewrite H. by eexists _, _.
Qed.

Section Examines.

Variable E : Env.

Lemma extends_dir_step root x : rel extends (dir_step E root x).
Proof.
  intros st. rewrite dir_step_eq.
  repeat match goal with
         | |- context [if ?b then _ else _] => destruct b; simpl
         end.
  all: unfold extends; simpl; rewrite <- ?app_assoc; by apply prefix_app_r.
Qed.

Lemma extends_file_step root x : rel extends (file_step E root x).
Proof.
  intros st. rewrite file_step_eq.
  repeat match goal with
         | |- context [if ?b then _ else _] => destruct b; simpl
         | |- context [match ?b with _ => _ end] => destruct b; simpl
         end.
  all: unfold extends; simpl; rewrite <- ?app_assoc; by apply prefix_app_r.
Qed.

Lemma dir_step_first_event root x st :
  emitted (CallIsAutoGenerated (join root x)) st (dir_step E root x st).2.
Proof.
  rewrite dir_step_eq. exists [].
  repeat match goal with
         | |- context [if ?b then _ else _] => destruct b; simpl
         end.
  all: rewrite <- ?app_assoc; by eexists.
Qed.

Lemma file_step_first_event root x st :
  emitted (CallIsAutoGenerated (join root x)) st (file_step E root x st).2.
Proof.
  rewrite file_step_eq. exists [].
  repeat match goal with
         | |- context [if ?b then _ else _] => destruct b; simpl
         | |- context [match ?b with _ => _ end] => destruct b; simpl
         end.
  all: rewrite <- ?app_assoc; by eexists.
Qed.

(** A loop that ends normally has examined each of its entries. *)
Lemma for_each_examines (step : string -> M unit) (root : path) (l : list string) st st' x :
  (forall y, rel extends (step y)) ->
  (forall y s, emitted (CallIsAutoGenerated (join root y)) s (step y s).2) ->
  for_each l step st = (Ret tt, st') -> x ∈ l ->
  emitted (CallIsAutoGenerated (join root x)) st st'.
Proof.
  intros Hext Hfirst Hrun Hx.
  apply list_elem_of_split in Hx as (l1 & l2 & ->).
  apply for_each_Ret_split in Hrun as (sta & stb & H1 & H2 & H3).
  apply (emitted_mono _ st sta stb st').
  - pose proof (rel_for_each extends l1 step (fun y _ => Hext y) st) as H.
    by rewrite H1 in H.
  - pose proof (Hfirst x sta) as H. by rewrite H2 in H.
  - pose proof (rel_for_each extends l2 step (fun y _ => Hext y) stb) as H.
    by rewrite H3 in H.
Qed.

Lemma remove_auto_generated_examines root ds fl st st' x :
  remove_auto_generated E root ds fl st = (Ret tt, st') ->
  x ∈ ds \/ x ∈ fl ->
  emitted (CallIsAutoGenerated (join root x)) st st'.
Proof.
  rewrite remove_auto_generated_steps. intros Hrun Hx.
  apply bind_Ret_inv in Hrun as ([] & sta & H1 & H2).
  destruct Hx as [Hx | Hx].
  - apply (emitted_mono _ st st sta st'); [done | |].
    + eapply for_each_examines; eauto using extends_dir_step, dir_step_first_event.
    + pose proof (rel_for_each extends fl (file_step E root)
                    (fun y _ => extends_file_step root y) sta) as H.
      by rewrite H2 in H.
  - apply (emitted_mono _ st sta st' st'); [| | done].
    + pose proof (rel_for_each extends ds (dir_step E root)
                    (fun y _ => extends_dir_step root y) st) as H.
      by rewrite H1 in H.
    + eapply for_each_examines; eauto using extends_file_step, file_step_first_event.
Qed.

Lemma artifact_between_deeper top x q :
  artifact_between E (join top x) q -> artifact_between E top q.
Proof.
  intros (p & H1 & H2 & H3 & H4 & H5). exists p. repeat split; try done.
  - etransitivity; [apply prefix_join | exact H1].
  - intros ->. apply prefix_length in H1. unfold join in H1.
    rewrite length_app in H1. simpl in H1. lia.
Qed.

(** A walk that ends normally has examined every path of the subtree that
    is not strictly below an auto-generated path. *)
Lemma os_walk_examines n : forall top st st' q,
  os_walk n top (remove_auto_generated E) st = (Ret tt, st') ->
  in_subtree (fs st) top q ->
  emitted (CallIsAutoGenerated q) st st' \/ artifact_between E top q.
Proof.
  induction n as [| n IH]; intros top st st' q Hrun Hin.
  { pose proof (in_subtree_root _ _ _ Hin) as Hd.
    apply scandir_dir in Hd as (ds & fl & Hs). simpl in Hrun. by rewrite Hs in Hrun. }
  pose proof (in_subtree_root _ _ _ Hin) as Hd.
  destruct (scandir_dir _ _ Hd) as (ds & fl & Hs).
  simpl in Hrun. rewrite Hs in Hrun.
  apply bind_Ret_inv in Hrun as ([] & sta & Hbody & Hrest).
  set (st0 := emit (CallScandir top) st) in *.
  assert (extends st st0) as He0 by apply extends_emit.
  assert (extends sta st') as Herest.
  { pose proof (rel_for_each extends ds (fun d => os_walk n (join top d) (remove_auto_generated E))
                  (fun d _ => extends_os_walk E n (join top d)) sta) as H.
    by rewrite Hrest in H. }
  inversion Hin as [top' x Ht Hx | top' x q' Ht Hq]; subst.
  - left. apply (emitted_mono _ st st0 sta st'); [done | | done].
    eapply remove_auto_generated_examines; [exact Hbody |].
    destruct Hx as [[] Hx].
    + right. by apply (scandir_files _ _ _ _ _ Hs).
    + left. by apply (scandir_dirs _ _ _ _ _ Hs).
  - destruct (is_auto_generated E (join top x)) eqn:Hg.
    { right. destruct (in_subtree_below _ _ _ Hq) as [Hp Hne].
      exists (join top x). repeat split; try done.
      - apply prefix_join.
      - apply join_ne. }
    assert (in_subtree (fs sta) (join top x) q) as Hqa.
    { eapply in_subtree_ext; [| exact Hq]. intros q0 Hq0.
      pose proof (remove_auto_generated_frame E top ds fl st0) as Hf.
      rewrite Hbody in Hf. simpl in Hf. apply Hf.
      intros (y & Hy & Hyq). assert (y = x) as -> by exact (join_prefix_inj top y x q0 Hyq Hq0).
      congruence. }
    assert (x ∈ ds) as Hxd.
    { apply (scandir_dirs _ _ _ _ _ Hs). by apply (in_subtree_root _ _ _ Hq). }
    apply list_elem_of_split_l in Hxd as (l1 & l2 & -> & Hx1).
    apply for_each_Ret_split in Hrest as (stb & stc & H1 & H2 & H3).
    assert (in_subtree (fs stb) (join top x) q) as Hqb.
    { eapply in_subtree_ext; [| exact Hqa]. intros q0 Hq0.
      assert (rel (frame (fun q1 => exists y, y ∈ l1 /\ join top y `prefix_of` q1))
                (for_each l1 (fun d => os_walk n (join top d) (remove_auto_generated E)))) as Hf.
      { apply rel_for_each; [apply _ |]. intros y Hy.
        eapply frame_weaken; [| apply os_walk_frame].
        intros q1 (p & Hp1 & _ & Hp2 & _). exists y. split; [done |]. by etransitivity. }
      specialize (Hf sta). rewrite H1 in Hf. simpl in Hf. apply Hf.
      intros (y & Hy & Hyq). assert (y = x) as -> by exact (join_prefix_inj top y x q0 Hyq Hq0).
      done. }
    destruct (IH _ _ _ _ H2 Hqb) as [Hem | Hab].
    + left. apply (emitted_mono _ st stb stc st'); [| done |].
      * transitivity st0; [done |]. transitivity sta.
        -- pose proof (extends_remove_auto_generated E top (l1 ++ x :: l2) fl st0) as H.
           by rewrite Hbody in H.
        -- pose proof (rel_for_each extends l1
                         (fun d => os_walk n (join top d) (remove_auto_generated E))
                         (fun d _ => extends_os_walk E n (join top d)) sta) as H.
           by rewrite H1 in H.
      * pose proof (rel_for_each extends l2
                      (fun d => os_walk n (join top d) (remove_auto_generated E))
                      (fun d _ => extends_os_walk E n (join top d)) stc) as H.
        by rewrite H3 in H.
    + right. by apply (artifact_between_deeper top x).
Qed.

End Examines.

(** * Deletions are guarded *)

Lemma guarded_nil : guarded [].
Proof. intros l1 e l2 p H. by destruct l1. Qed.

Lemma guarded_app (a b : list event) : guarded a -> guarded b -> guarded (a ++ b).
Proof.
  intros Ha Hb l1 e l2 p Heq He.
  symmetry in Heq. apply app_eq_inv in Heq as [(k & -> & Hk) | (k & -> & Hk)].
  - specialize (Hb k e l2 p Hk He).
    destruct k as [| e0 k _] using rev_ind; [done |].
    rewrite last_snoc in Hb. by rewrite app_assoc, last_snoc.
  - destruct k as [| e' k].
    + simpl in Hk. subst b.
      by specialize (Hb [] e l2 p eq_refl He).
    + simpl in Hk. inversion Hk; subst. by eapply (Ha l1 e' k p).
Qed.

#[global] Instance added_guarded_preorder : PreOrder (added guarded).
Proof.
  split.
  - intros st. exists []. split; [by rewrite app_nil_r | apply guarded_nil].
  - intros st1 st2 st3 (a & Ha & Ga) (b & Hb & Gb). exists (a ++ b).
    split; [by rewrite Hb, Ha, app_assoc | by apply guarded_app].
Qed.

Lemma guarded_plain (e : event) : ~ is_deletion e -> guarded [e].
Proof.
  intros Hn l1 e' l2 p Heq He.
  destruct l1 as [| ? [| ? ?]]; inversion Heq; subst.
  destruct He as [-> | ->]; by destruct Hn.
Qed.

Lemma guarded_checked (e : event) (p : path) (tl : list event) :
  (e = CallRmtree p \/ e = CallRemove p) -> guarded tl ->
  guarded (CallExists p :: e :: tl).
Proof.
  intros He Htl l1 e' l2 q Heq Hq.
  destruct l1 as [| e1 [| e2 l1]]; inversion Heq; subst.
  - by destruct Hq.
  - simpl. destruct He as [-> | ->], Hq as [Hq | Hq]; by inversion Hq.
  - specialize (Htl l1 e' l2 q eq_refl Hq).
    destruct l1 as [| e0 l1 _] using rev_ind; [done |].
    rewrite last_snoc in Htl. by rewrite !app_comm_cons, last_snoc.
Qed.

Section Guarded.

Variable E : Env.

Lemma guarded_dir_step root x : rel (added guarded) (dir_step E root x).
Proof.
  intros st. rewrite dir_step_eq.
  set (p := join root x).
  destruct (is_auto_generated E p); simpl.
  2: { exists [CallIsAutoGenerated p]. split; [done | apply guarded_plain; intros []]. }
  destruct (path_exists (fs st) p); simpl.
  2: { exists ([CallIsAutoGenerated p] ++ [CallExists p]).
       split; [by simpl; rewrite <- ?app_assoc | apply guarded_app; apply guarded_plain; intros []]. }
  destruct (path_isdir (fs st) p && _); simpl.
  - exists ([CallIsAutoGenerated p] ++
            CallExists p :: CallRmtree p :: [LogInfo (RemovedAutoGenerated p)]).
    split; [by simpl; rewrite <- ?app_assoc |].
    apply guarded_app; [apply guarded_plain; intros [] |].
    apply guarded_checked; [by left | apply guarded_plain; intros []].
  - exists ([CallIsAutoGenerated p] ++ CallExists p :: CallRmtree p :: []).
    split; [by simpl; rewrite <- ?app_assoc |].
    apply guarded_app; [apply guarded_plain; intros [] |].
    apply guarded_checked; [by left | apply guarded_nil].
Qed.

Lemma guarded_file_step root x : rel (added guarded) (file_step E root x).
Proof.
  intros st. rewrite file_step_eq.
  set (p := join root x).
  destruct (is_auto_generated E p); simpl.
  2: { exists [CallIsAutoGenerated p]. split; [done | apply guarded_plain; intros []]. }
  destruct (path_exists (fs st) p); simpl.
  2: { exists ([CallIsAutoGenerated p] ++ [CallExists p]).
       split; [by simpl; rewrite <- ?app_assoc | apply guarded_app; apply guarded_plain; intros []]. }
  assert (added guarded st (emit (CallRemove p) (emit (CallExists p)
            (emit (CallIsAutoGenerated p) st)))) as Hfail.
  { exists ([CallIsAutoGenerated p] ++ CallExists p :: CallRemove p :: []).
    split; [by simpl; rewrite <- ?app_assoc |].
    apply guarded_app; [apply guarded_plain; intros [] |].
    apply guarded_checked; [by right | apply guarded_nil]. }
  destruct (fs st !! p) as [[] |]; simpl; try done.
  destruct (remove_denied E (fs st) p); simpl; [done |].
  exists ([CallIsAutoGenerated p] ++
          CallExists p :: CallRemove p :: [LogInfo (RemovedAutoGenerated p)]).
  split; [by simpl; rewrite <- ?app_assoc |].
  apply guarded_app; [apply guarded_plain; intros [] |].
  apply guarded_checked; [by right | apply guarded_plain; intros []].
Qed.

Lemma guarded_os_walk n top :
  rel (added guarded) (os_walk n top (remove_auto_generated E)).
Proof.
  apply (rel_os_walk (added guarded) (fun _ => True)); try done.
  - intros st p. exists [CallScandir p]. split; [done | apply guarded_plain; intros []].
  - intros r ds fl _. rewrite remove_auto_generated_steps.
    apply rel_bind; [apply _ | | intros _]; apply rel_for_each; try apply _; intros x _.
    + apply guarded_dir_step.
    + apply guarded_file_step.
Qed.

End Guarded.

(** * Entries that are gone *)

Lemma kind_or_gone_subseteq (f f' : FS) (k : kind) (q : path) :
  f' ⊆ f -> kind_or_gone f k q -> kind_or_gone f' k q.
Proof.
  intros Hsub [Hk | Hn].
  - destruct (f' !! q) as [k' |] eqn:Hq; [| by right].
    left. apply (lookup_weaken _ _ _ _ Hq) in Hsub. congruence.
  - right. by eapply lookup_weaken_None.
Qed.

Section Gone.

Variable E : Env.

(** A directory that cannot be listed any more is skipped. *)
Lemma os_walk_gone n top st :
  path_isdir (fs st) top = false ->
  os_walk n top (remove_auto_generated E) st = (Ret tt, emit (CallScandir top) st).
Proof. intros H. destruct n; simpl; unfold scandir; by rewrite H. Qed.

(** An entry that is gone when its turn comes is left out: nothing is
    deleted and the loop goes on. *)
Lemma dir_step_gone root x st :
  path_exists (fs st) (join root x) = false ->
  (dir_step E root x st).1 = Ret tt /\ fs (dir_step E root x st).2 = fs st.
Proof.
  intros H. rewrite dir_step_eq. simpl. rewrite H.
  by destruct (is_auto_generated E (join root x)).
Qed.

Lemma file_step_gone root x st :
  path_exists (fs st) (join root x) = false ->
  (file_step E root x st).1 = Ret tt /\ fs (file_step E root x st).2 = fs st.
Proof.
  intros H. rewrite file_step_eq. simpl. rewrite H.
  by destruct (is_auto_generated E (join root x)).
Qed.

Lemma shrinks_dir_step root x : rel shrinks (dir_step E root x).
Proof.
  intros st. rewrite dir_step_eq.
  repeat match goal with
         | |- context [if ?b then _ else _] => destruct b; simpl
         end; unfold shrinks; simpl; try done.
  - apply rmtree_subseteq.
  - apply rmtree_stopped_subseteq.
Qed.

Lemma shrinks_file_step root x : rel shrinks (file_step E root x).
Proof.
  intros st. rewrite file_step_eq.
  repeat match goal with
         | |- context [if ?b then _ else _] => destruct b; simpl
         | |- context [match ?b with _ => _ end] => destruct b; simpl
         end; unfold shrinks; simpl; try done.
  apply delete_subseteq.
Qed.

Hypothesis Hlenient : lenient E.

Lemma dir_steps_lenient root : forall ds st,
  (forall y, y ∈ ds -> kind_or_gone (fs st) Dir (join root y)) ->
  (for_each ds (dir_step E root) st).1 = Ret tt.
Proof.
  induction ds as [| x ds IH]; intros st Hinv; simpl; [done |].
  unfold bind.
  assert ((dir_step E root x st).1 = Ret tt) as Hx.
  { rewrite dir_step_eq. simpl.
    destruct (is_auto_generated E (join root x)); [| done].
    destruct (path_exists (fs st) (join root x)) eqn:Hex; [| done].
    destruct (Hinv x) as [Hd | Hn]; [left | |].
    - apply path_isdir_lookup in Hd. rewrite Hd.
      by rewrite (proj1 (Hlenient (fs st) (join root x))).
    - unfold path_exists in Hex. by rewrite Hn in Hex. }
  pose proof (shrinks_dir_step root x st) as Hs.
  destruct (dir_step E root x st) as [r st1]. simpl in *. subst r.
  apply IH. intros y Hy. eapply kind_or_gone_subseteq; [exact Hs |].
  apply Hinv. by right.
Qed.

Lemma file_steps_lenient root : forall fl st,
  (forall y, y ∈ fl -> kind_or_gone (fs st) File (join root y)) ->
  (for_each fl (file_step E root) st).1 = Ret tt.
Proof.
  induction fl as [| x fl IH]; intros st Hinv; simpl; [done |].
  unfold bind.
  assert ((file_step E root x st).1 = Ret tt) as Hx.
  { rewrite file_step_eq. simpl.
    destruct (is_auto_generated E (join root x)); [| done].
    destruct (path_exists (fs st) (join root x)) eqn:Hex; [| done].
    destruct (Hinv x) as [Hd | Hn]; [left | |].
    - rewrite Hd. by rewrite (proj2 (Hlenient (fs st) (join root x))).
    - unfold path_exists in Hex. by rewrite Hn in Hex. }
  pose proof (shrinks_file_step root x st) as Hs.
  destruct (file_step E root x st) as [r st1]. simpl in *. subst r.
  apply IH. intros y Hy. eapply kind_or_gone_subseteq; [exact Hs |].
  apply Hinv. by right.
Qed.

Lemma remove_auto_generated_lenient root ds fl st :
  scandir (fs st) root = Some (ds, fl) ->
  (remove_auto_generated E root ds fl (emit (CallScandir root) st)).1 = Ret tt.
Proof.
  intros Hs. rewrite remove_auto_generated_steps. unfold bind.
  set (st0 := emit (CallScandir root) st).
  pose proof (dir_steps_lenient root ds st0) as Hd.
  pose proof (rel_for_each shrinks ds (dir_step E root)
                (fun y _ => shrinks_dir_step root y) st0) as Hsh.
  destruct (for_each ds (dir_step E root) st0) as [r st1]. simpl in *.
  rewrite Hd.
  - apply file_steps_lenient. intros y Hy.
    eapply kind_or_gone_subseteq; [exact Hsh |].
    left. by apply (scandir_files _ _ _ _ _ Hs).
  - intros y Hy. left. by apply (scandir_dirs _ _ _ _ _ Hs).
Qed.

Lemma os_walk_lenient n : forall top st e,
  (os_walk n top (remove_auto_generated E) st).1 <> Raise e.
Proof.
  induction n as [| n IH]; intros top st e; simpl.
  - by destruct (scandir (fs st) top) as [[ds fl] |].
  - destruct (scandir (fs st) top) as [[ds fl] |] eqn:Hs; [| done].
    unfold bind. pose proof (remove_auto_generated_lenient top ds fl st Hs) as Hb.
    destruct (remove_auto_generated E top ds fl _) as [r st1]. simpl in Hb. subst r.
    intros Hr. eapply (raises_for_each (fun _ => False)); [| exact Hr].
    intros d st' e' He'. by apply IH in He'.
Qed.

(** If no deletion is refused, the walk goes through the whole subtree. *)
Lemma walk_dst_lenient d st : (walk_dst E d st).1 = Ret tt.
Proof.
  pose proof (walk_dst_fueled E d st) as Hf.
  pose proof (os_walk_lenient (S (depth_bound (fs st))) d st) as Hr.
  unfold walk_dst in *.
  destruct (os_walk _ d _ st) as [[[] | e |] st']; simpl in *; try done.
  by destruct (Hr e).
Qed.

End Gone.

(** * The walk of the finalizer *)

Lemma emitted_elem e st st' : emitted e st st' -> e ∈ trace st'.
Proof.
  intros (l1 & l2 & ->). rewrite !elem_of_app. right. right. left.
Qed.




(** * Termination of the recursion *)

Lemma bounded_of_depth_bound (D : nat) (f : FS) :
  depth_bound f <= D -> bounded D f.
Proof.
  intros Hle p k Hp. pose proof (depth_bound_bounded f p k Hp). lia.
Qed.

Lemma extractall_unfold (E : Env) (n : nat) (osrc odst : option path)
    (o : Options) (c : bool) (st : State) :
  let s := default (src (self st)) osrc in
  let d := default (dst (self st)) odst in
  let extract_dir := join d (splitext_root (basename s)) in
  let r := extract E (Some s) (Some d) o c st in
  extractall E (S n) osrc odst o c st =
    match r.1 with
    | Ret _ =>
        if path_isdir (fs r.2) extract_dir
        then descend E n extract_dir o c (listdir (fs r.2) extract_dir)
               (emit (CallListdir extract_dir)
                  (emit (CallIsdir extract_dir) (emit (CallExists extract_dir) r.2)))
        else (Ret tt, no_descent extract_dir r.2)
    | Raise e => (Raise e, r.2)
    | OutOfFuel => (OutOfFuel, r.2)
    end.
Proof.
  intros s d extract_dir r.
  transitivity (extractall E (S n) (Some s) (Some d) o c st);
    [by destruct osrc, odst |].
  subst extract_dir r. simpl extractall. unfold bind at 1 2 3. simpl arg_or_field.
  cbv beta iota. unfold ret at 1 2.
  destruct (extract E (Some s) (Some d) o c st) as [[[] | e |] st1]; [| done | done].
  cbn [fst snd]. unfold no_descent, bind, os_path_exists, os_path_isdir, os_listdir.
  cbn [fst snd negb fs emit].
  destruct (path_exists (fs st1) _) eqn:Hex; cbn [negb]; cbv beta; cbn [fs emit];
    destruct (path_isdir (fs st1) _) eqn:Hd; cbn [negb]; cbv beta; cbn [fs emit];
    try done.
  apply path_isdir_lookup in Hd. unfold path_exists in Hex. by rewrite Hd in Hex.
Qed.

(** ** Exceptions that leave [extractall] *)

(** [extractall] catches nothing: what leaves it is what left an [extract]
    of the run. *)

Lemma extractall_raises (E : Env) (o : Options) (c : bool) :
  forall fuel osrc odst,
    raises (fun e => ~ is_patoolerror e) (extractall E fuel osrc odst o c).
Proof.
  induction fuel as [| n IH]; intros osrc odst; simpl; [done |].
  apply raises_bind; [by destruct osrc |]. intros s.
  apply raises_bind; [by destruct odst |]. intros d.
  apply raises_bind.
  { intros st e. apply extract_raises. }
  intros _. apply raises_bind; [done |].
  intros ex. apply raises_if; [done |].
  apply raises_bind; [done |].
  intros isd. apply raises_if; [done |].
  apply raises_bind; [done |].
  intros files. apply raises_for_each. intros file.
  apply raises_bind; [done |].
  intros a. apply raises_if; [apply IH | done].
Qed.

Lemma extractall_never_raises (E : Env) (o : Options) (c : bool) :
  patool_only E ->
  forall fuel osrc odst, raises (fun _ => False) (extractall E fuel osrc odst o c).
Proof.
  intros HE. induction fuel as [| n IH]; intros osrc odst; simpl; [done |].
  apply raises_bind; [by destruct osrc |]. intros s.
  apply raises_bind; [by destruct odst |]. intros d.
  apply raises_bind.
  { intros st e He. by rewrite extract_returns in He. }
  intros _. apply raises_bind; [done |].
  intros ex. apply raises_if; [done |].
  apply raises_bind; [done |].
  intros isd. apply raises_if; [done |].
  apply raises_bind; [done |].
  intros files. apply raises_for_each. intros file.
  apply raises_bind; [done |].
  intros a. apply raises_if; [apply IH | done].
Qed.

Section Termination.

Variable E : Env.
Variable o : Options.
Variables s0 d0 : path.
Variable D : nat.
Variable Inv : FS -> Prop.
Hypothesis Hnest : bounded_nesting E o s0 d0 D Inv.

Lemma shrinks_finalizer s d c : rel shrinks (finalizer E s d c).
Proof.
  apply rel_try_except_oserror; [apply _ | | by apply rel_ret, _].
  unfold cleanup_and_delete. apply rel_bind; [apply _ | apply shrinks_walk_dst |].
  intros _. apply rel_if; [| by apply rel_ret, _].
  apply rel_bind; [apply _ | intros st; apply shrinks_emit |].
  intros e. apply rel_if; [| by apply rel_ret, _].
  apply rel_bind; [apply _ | apply shrinks_remove | intros _ st; apply shrinks_emit].
Qed.

(** [extract] stays in [Inv]: the backend is called only on an archive that
    passed the validation. *)
Lemma extract_nesting s d c st :
  nested_call s0 d0 s d -> Inv (fs st) ->
  Inv (fs (extract E (Some s) (Some d) o c st).2).
Proof.
  intros Hcall Hi. destruct Hnest as (_ & Hdel & Hunp).
  rewrite extract_eq, test_archive_eq. simpl default.
  destruct (is_archive E (fs st) s) eqn:Ha; [| done].
  destruct (probe E o s (fs st)) as [[msg | msg | msg] |] eqn:Hp; try done.
  cbn [fst snd]. eapply Hdel; [apply shrinks_finalizer |].
  assert (Inv (unpack E o s d (fs st)).1) as Hu by by apply Hunp.
  unfold after_unpack. cbn [fs emit].
  by destruct (unpack E o s d (fs st)).2 as [[] |].
Qed.

(** With fuel for the levels that are left, [extractall] ends and the fuel
    left over does not matter. *)
Lemma extractall_enough_fuel (c : bool) :
  forall n s d st,
    nested_call s0 d0 s d -> Inv (fs st) -> D + 2 <= n + length d -> 1 <= n ->
    (extractall E n (Some s) (Some d) o c st).1 <> OutOfFuel /\
    Inv (fs (extractall E n (Some s) (Some d) o c st).2) /\
    forall m, D + 2 <= m + length d -> 1 <= m ->
      extractall E m (Some s) (Some d) o c st = extractall E n (Some s) (Some d) o c st.
Proof.
  induction n as [| n IH]; intros s d st Hcall Hb Hn H1; [lia |].
  set (extract_dir := join d (splitext_root (basename s))).
  set (r := extract E (Some s) (Some d) o c st).
  assert (Inv (fs r.2)) as Hb1 by by apply extract_nesting.
  pose proof (extract_fueled E (Some s) (Some d) o c st) as Hfuel. fold r in Hfuel.
  assert (forall k, extractall E (S k) (Some s) (Some d) o c st =
            match r.1 with
            | Ret _ =>
                if path_isdir (fs r.2) extract_dir
                then descend E k extract_dir o c (listdir (fs r.2) extract_dir)
                       (emit (CallListdir extract_dir)
                          (emit (CallIsdir extract_dir) (emit (CallExists extract_dir) r.2)))
                else (Ret tt, no_descent extract_dir r.2)
            | Raise e => (Raise e, r.2)
            | OutOfFuel => (OutOfFuel, r.2)
            end) as Hunf.
  { intros k. apply (extractall_unfold E k (Some s) (Some d) o c st). }
  destruct r.1 as [[] | e |] eqn:Hr1; [| | done].
  2: { (* the extraction raised: the call ends here *)
       rewrite Hunf. split; [done |]. split; [done |].
       intros m _ Hm2. destruct m as [| m]; [lia |]. by rewrite Hunf. }
  destruct (path_isdir (fs r.2) extract_dir) eqn:Hd.
  - (* the output directory is there: one level down *)
    assert (length extract_dir <= D) as Hlen.
    { apply path_isdir_lookup in Hd. destruct Hnest as (Hbd & _). by eapply Hbd. }
    assert (length extract_dir = S (length d)) as Hlen'.
    { unfold extract_dir, join. rewrite length_app. simpl. lia. }
    assert (forall files st2, Inv (fs st2) ->
              (descend E n extract_dir o c files st2).1 <> OutOfFuel /\
              Inv (fs (descend E n extract_dir o c files st2).2) /\
              forall m, D + 2 <= m + length extract_dir -> 1 <= m ->
                descend E m extract_dir o c files st2 =
                descend E n extract_dir o c files st2) as Hdesc.
    { induction files as [| file files IHf]; intros st2 Hb2; [done |].
      rewrite descend_cons. cbv zeta.
      set (st3 := emit (CallIsArchive (join extract_dir file)) st2).
      destruct (is_archive E (fs st2) (join extract_dir file)) eqn:Ha.
      - destruct (IH (join extract_dir file) extract_dir st3) as (Hr & Hbr & Hm);
          [right; by exists file | done | lia | lia |].
        unfold bind.
        destruct (extractall E n (Some (join extract_dir file)) (Some extract_dir) o c st3)
          as [[[] | e |] st4] eqn:He; simpl in Hr, Hbr; [| | done].
        + destruct (IHf st4 Hbr) as (Hr' & Hbr' & Hm').
          split; [done |]. split; [done |].
          intros m Hm1 Hm2. rewrite descend_cons. cbv zeta. rewrite Ha.
          fold st3. unfold bind. rewrite (Hm m Hm1 Hm2). by apply Hm'.
        + split; [done |]. split; [done |].
          intros m Hm1 Hm2. rewrite descend_cons. cbv zeta. rewrite Ha.
          fold st3. unfold bind. by rewrite (Hm m Hm1 Hm2).
      - destruct (IHf st3 Hb2) as (Hr' & Hbr' & Hm').
        split; [done |]. split; [done |].
        intros m Hm1 Hm2. rewrite descend_cons. cbv zeta. rewrite Ha.
        by apply Hm'. }
    rewrite Hunf.
    match goal with |- context [descend E n extract_dir o c ?l ?s] =>
      destruct (Hdesc l s Hb1) as (Hr & Hbr & Hm)
    end.
    split; [done |]. split; [done |].
    intros m Hm1 Hm2. destruct m as [| m]; [lia |].
    rewrite Hunf. apply Hm; lia.
  - (* no output directory: the recursion stops here *)
    rewrite Hunf. split; [done |]. split.
    + simpl. unfold no_descent. by destruct (path_exists (fs r.2) extract_dir).
    + intros m _ Hm2. destruct m as [| m]; [lia |]. by rewrite Hunf.
Qed.

End Termination.

Lemma join_inj (d d' : path) (x x' : string) : join d x = join d' x' -> d = d' /\ x = x'.
Proof. apply app_inj_tail. Qed.

(** The small backend: a run on [outer.zip] in [demo_fs] meets no entry but
    those of [demo_reach], none of which has more than four components. *)
Lemma demo_nesting_is_bounded :
  bounded_nesting demo_env demo_options ["d"; "outer.zip"] ["d"] 4
    (fun f => f ⊆ demo_reach).
Proof.
  split; [| split].
  - intros f Hf. eapply bounded_subseteq; [exact Hf |].
    apply bounded_of_depth_bound. vm_compute. lia.
  - intros f f' Hsub Hf. by etransitivity.
  - intros s d f Hcall Hf Ha Hp. simpl in Hp |- *.
    destruct (path_exists f s) eqn:Hex; [| done]. clear Hp.
    unfold path_exists in Hex. destruct (f !! s) as [k |] eqn:Hs; [| done].
    pose proof (lookup_weaken _ _ _ _ Hs Hf) as Hr.
    apply elem_of_map_to_list in Hr. vm_compute in Hr.
    assert (forall f0 : FS, f0 ⊆ demo_reach -> forall q k0,
              demo_reach !! q = Some k0 -> <[q := k0]> f0 ⊆ demo_reach) as Hins.
    { intros f0 H0 q k0 Hq. by apply insert_subseteq_l. }
    unfold demo_unpack.
    destruct (path_exists f d && negb (path_isdir f d)); [done |].
    repeat (apply elem_of_cons in Hr as [Hr | Hr]); try by apply elem_of_nil in Hr.
    all: injection Hr as -> ->; try by vm_compute in Ha.
    all: destruct Hcall as [[Hs0 ->] | [file Hfile]]; try discriminate Hs0;
      try (apply (join_inj [_] d _ file) in Hfile as [<- <-]);
      try (apply (join_inj [_; _] d _ file) in Hfile as [<- <-]).
    all: repeat match goal with
         | |- context [String.eqb ?a ?b] =>
             let v := eval vm_compute in (String.eqb a b) in
             change (String.eqb a b) with v
         end; cbv iota; cbn [fst].
    all: repeat (apply Hins; [| vm_compute; reflexivity]); try done.
Qed.

(** C8: [extractall] ends when the nesting of the archives ends, that is,
    when the file systems the run can go through hold no path of more than
    [D] components.  Every amount of fuel from [D + 2] on gives the same
    result, so the recursion is at most [D + 2] levels deep; the call ends
    normally, or with the exception the backend raised if that is not a
    [PatoolError]. *)
Theorem extractall_terminates (E : Env) (D : nat) (Inv : FS -> Prop)
    (osrc odst : option path) (o : Options) (c : bool) (st : State) :
  let s := default (src (self st)) osrc in
  let d := default (dst (self st)) odst in
  bounded_nesting E o s d D Inv -> Inv (fs st) ->
  forall fuel, D + 2 <= fuel ->
    (extractall E fuel osrc odst o c st).1 <> OutOfFuel /\
    extractall E fuel osrc odst o c st = extractall E (D + 2) osrc odst o c st /\
    (forall e, (extractall E fuel osrc odst o c st).1 = Raise e -> ~ is_patoolerror e) /\
    (patool_only E -> (extractall E fuel osrc odst o c st).1 = Ret tt).
Proof.
  intros s d Hk Hb fuel Hf.
  assert (forall n, extractall E n osrc odst o c st =
                    extractall E n (Some s) (Some d) o c st) as Hdef.
  { intros [| n]; by destruct osrc, odst. }
  rewrite !Hdef.
  destruct (extractall_enough_fuel E o s d D Inv Hk c fuel s d st) as (Hr & _ & _);
    [by left | done | lia | lia |].
  destruct (extractall_enough_fuel E o s d D Inv Hk c (D + 2) s d st) as (_ & _ & Hm);
    [by left | done | lia | lia |].
  split; [done |]. split; [apply Hm; lia |]. split.
  - intros e. apply extractall_raises.
  - intros HE.
    pose proof (extractall_never_raises E o c HE fuel (Some s) (Some d) st) as Hn.
    destruct (extractall E fuel (Some s) (Some d) o c st).1 as [[] | e |]; try done.
    by destruct (Hn e).
Qed.

Lemma extractall_terminates_witness :
  let st := demo_state demo_fs in
  (extractall demo_env 6 None None demo_options true st).1 <> OutOfFuel /\
  extractall demo_env 9 None None demo_options true st =
  extractall demo_env 6 None None demo_options true st.
Proof.
  intros st.
  pose proof (extractall_terminates demo_env 4 (fun f => f ⊆ demo_reach) None None
                demo_options true st demo_nesting_is_bounded) as H.
  assert (fs st ⊆ demo_reach) as Hst.
  { apply map_subseteq_spec. intros q k Hq.
    apply elem_of_map_to_list in Hq. vm_compute in Hq.
    repeat (apply elem_of_cons in Hq as [Hq | Hq]); try by apply elem_of_nil in Hq.
    all: injection Hq as -> ->; vm_compute; reflexivity. }
  split.
  - destruct (H Hst 6 ltac:(lia)) as [Hr _]. exact Hr.
  - destruct (H Hst 9 ltac:(lia)) as (_ & Hr & _). exact Hr.
Defined.

(** ** The bound is needed *)

Lemma basename_join (d : path) (x : string) : basename (join d x) = x.
Proof. unfold basename, join. by rewrite last_snoc. Qed.

Lemma quine_extract (d : path) (o : Options) (st : State) :
  fs st !! join d "q.zip" = Some File ->
  fs (extract quine_env (Some (join d "q.zip")) (Some d) o false st).2 =
  <[join d "q" := Dir]> (<[join (join d "q") "q.zip" := File]> (fs st)).
Proof.
  intros Hq. rewrite extract_eq, test_archive_eq. simpl default. simpl is_archive.
  rewrite basename_join. simpl.
  unfold path_exists. rewrite Hq. simpl.
  rewrite finalizer_state. unfold cleanup_and_delete, bind.
  match goal with |- context [walk_dst quine_env d ?s] =>
    pose proof (os_walk_frame quine_env (S (depth_bound (fs s))) d s) as Hf;
    fold (walk_dst quine_env d s) in Hf;
    destruct (walk_dst quine_env d s) as [[[] | e |] st'] eqn:Hw
  end; simpl in *.
  all: apply map_eq; intros q; rewrite Hf; [done | by intros (p & _ & _ & _ & ?) ..].
Qed.

Lemma quine_descend (n : nat) (dir : path) (o : Options) :
  (forall st, fs st !! join dir "q.zip" = Some File ->
     (extractall quine_env n (Some (join dir "q.zip")) (Some dir) o false st).1 = OutOfFuel) ->
  forall files st, "q.zip" ∈ files -> fs st !! join dir "q.zip" = Some File ->
    (descend quine_env n dir o false files st).1 = OutOfFuel.
Proof.
  intros Hrec. induction files as [| file files IH]; intros st Hin Hq.
  { by apply elem_of_nil in Hin. }
  rewrite descend_cons. cbv zeta. simpl is_archive. rewrite basename_join.
  destruct (String.eqb file "q.zip") eqn:Heq.
  - apply String.eqb_eq in Heq. subst file. unfold bind.
    specialize (Hrec (emit (CallIsArchive (join dir "q.zip")) st) Hq).
    destruct (extractall quine_env n _ _ o false _) as [r st']. simpl in Hrec. by subst r.
  - apply IH; [| done]. apply elem_of_cons in Hin as [Hin | Hin]; [| done].
    rewrite <- Hin in Heq. by vm_compute in Heq.
Qed.

Lemma quine_patool_only : patool_only quine_env.
Proof.
  split; simpl.
  - intros o p f e. destruct (path_exists f p); [done |]. by intros [= <-].
  - by intros.
Qed.

(** Without a bound on the depth the recursion need not end: on the archive
    that holds itself, every amount of fuel runs out. *)
Lemma extractall_quine_runs_out (o : Options) : forall n d st,
  fs st !! join d "q.zip" = Some File ->
  (extractall quine_env n (Some (join d "q.zip")) (Some d) o false st).1 = OutOfFuel.
Proof.
  induction n as [| n IH]; intros d st Hq; [done |].
  rewrite extractall_unfold. simpl default. rewrite basename_join.
  change (splitext_root "q.zip") with "q".
  rewrite (extract_returns quine_env _ _ o false st quine_patool_only).
  rewrite (quine_extract d o st Hq).
  assert (path_isdir (<[join d "q" := Dir]>
            (<[join (join d "q") "q.zip" := File]> (fs st))) (join d "q") = true) as ->.
  { apply path_isdir_lookup. apply lookup_insert_eq. }
  assert (join d "q" <> join (join d "q") "q.zip") as Hne.
  { intros Heq. symmetry in Heq. by apply join_ne in Heq. }
  apply quine_descend.
  - intros st' Hq'. by apply IH.
  - apply elem_of_listdir. rewrite lookup_insert_ne by done.
    rewrite lookup_insert_eq. by eexists.
  - simpl. rewrite quine_extract by done. rewrite lookup_insert_ne by done.
    apply lookup_insert_eq.
Qed.

(** * The tree the walk leaves *)

Lemma in_subtree_subseteq (f f' : FS) (top q : path) :
  f' ⊆ f -> in_subtree f' top q -> in_subtree f top q.
Proof.
  intros Hsub. induction 1 as [top n Ht [k Hn] | top n q Ht Hq IH].
  - apply in_subtree_child.
    + by eapply lookup_weaken.
    + exists k. by eapply lookup_weaken.
  - apply (in_subtree_deeper _ top n); [by eapply lookup_weaken | done].
Qed.

Lemma for_each_Ret_elem {A} (l : list A) (x : A) (body : A -> M unit) st st' :
  x ∈ l -> for_each l body st = (Ret tt, st') ->
  exists l1 l2 sta stb, l = l1 ++ x :: l2 /\
    for_each l1 body st = (Ret tt, sta) /\
    body x sta = (Ret tt, stb) /\
    for_each l2 body stb = (Ret tt, st').
Proof.
  intros (l1 & l2 & ->)%list_elem_of_split Hrun.
  apply for_each_Ret_split in Hrun as (sta & stb & H1 & H2 & H3).
  by exists l1, l2, sta, stb.
Qed.

Section Leaves.

Variable E : Env.

Lemma dir_step_removes root x st st' :
  is_auto_generated E (join root x) = true ->
  dir_step E root x st = (Ret tt, st') -> fs st' !! join root x = None.
Proof.
  intros Hg. rewrite dir_step_eq. simpl. rewrite Hg.
  destruct (path_exists (fs st) (join root x)) eqn:Hex.
  - destruct (path_isdir (fs st) (join root x) && _); [| done].
    intros [= <-]. simpl. rewrite rmtree_lookup. by rewrite decide_True.
  - intros [= <-]. simpl. unfold path_exists in Hex.
    by destruct (fs st !! join root x).
Qed.

Lemma file_step_removes root x st st' :
  is_auto_generated E (join root x) = true ->
  file_step E root x st = (Ret tt, st') -> fs st' !! join root x = None.
Proof.
  intros Hg. rewrite file_step_eq. simpl. rewrite Hg.
  destruct (path_exists (fs st) (join root x)) eqn:Hex.
  - destruct (fs st !! join root x) as [[] |]; try done.
    destruct (remove_denied E (fs st) (join root x)); [done |].
    intros [= <-]. simpl. apply lookup_delete_eq.
  - intros [= <-]. simpl. unfold path_exists in Hex.
    by destruct (fs st !! join root x).
Qed.

Lemma steps_remove (step : string -> M unit) (root : path) (l : list string) st st' x :
  (forall y, rel shrinks (step y)) ->
  (forall s s', step x s = (Ret tt, s') -> fs s' !! join root x = None) ->
  for_each l step st = (Ret tt, st') -> x ∈ l ->
  fs st' !! join root x = None.
Proof.
  intros Hsh Hrm Hrun Hx.
  destruct (for_each_Ret_elem _ _ _ _ _ Hx Hrun) as (l1 & l2 & sta & stb & _ & _ & H2 & H3).
  pose proof (rel_for_each shrinks l2 step (fun y _ => Hsh y) stb) as Hs.
  rewrite H3 in Hs. eapply lookup_weaken_None; [| exact Hs]. by eapply Hrm.
Qed.

Lemma remove_auto_generated_removes root ds fl st st' x :
  remove_auto_generated E root ds fl st = (Ret tt, st') ->
  x ∈ ds \/ x ∈ fl -> is_auto_generated E (join root x) = true ->
  fs st' !! join root x = None.
Proof.
  rewrite remove_auto_generated_steps. intros Hrun Hx Hg.
  apply bind_Ret_inv in Hrun as ([] & sta & H1 & H2).
  destruct Hx as [Hx | Hx].
  - pose proof (rel_for_each shrinks fl (file_step E root)
                  (fun y _ => shrinks_file_step E root y) sta) as Hs.
    rewrite H2 in Hs. eapply lookup_weaken_None; [| exact Hs].
    eapply (steps_remove (dir_step E root)); eauto using shrinks_dir_step.
    intros s s'. by apply dir_step_removes.
  - eapply (steps_remove (file_step E root)); eauto using shrinks_file_step.
    intros s s'. by apply file_step_removes.
Qed.

(** A walk that ends normally leaves nothing auto-generated in the subtree. *)
Lemma os_walk_leaves_clean n : forall top st st',
  os_walk n top (remove_auto_generated E) st = (Ret tt, st') ->
  clean_subtree E (fs st') top.
Proof.
  induction n as [| n IH]; intros top st st' Hrun q Hin.
  { pose proof (shrinks_os_walk E 0 top st) as Hs. rewrite Hrun in Hs.
    pose proof (lookup_weaken _ _ _ _ (in_subtree_root _ _ _ Hin) Hs) as Hd.
    apply scandir_dir in Hd as (ds & fl & Hsc). simpl in Hrun. by rewrite Hsc in Hrun. }
  pose proof (shrinks_os_walk E (S n) top st) as Hs. rewrite Hrun in Hs. simpl in Hs.
  pose proof (lookup_weaken _ _ _ _ (in_subtree_root _ _ _ Hin) Hs) as Hd.
  destruct (scandir_dir _ _ Hd) as (ds & fl & Hsc).
  simpl in Hrun. rewrite Hsc in Hrun.
  apply bind_Ret_inv in Hrun as ([] & sta & Hbody & Hrest).
  assert (shrinks sta st') as Hsa.
  { pose proof (rel_for_each shrinks ds
                  (fun d => os_walk n (join top d) (remove_auto_generated E))
                  (fun d _ => shrinks_os_walk E n (join top d)) sta) as H.
    by rewrite Hrest in H. }
  inversion Hin as [top' x Ht [k Hx] | top' x q' Ht Hq]; subst.
  - destruct (is_auto_generated E (join top x)) eqn:Hg; [| done].
    assert (fs sta !! join top x = None) as Hnone.
    { eapply remove_auto_generated_removes; [exact Hbody | | exact Hg].
      pose proof (lookup_weaken _ _ _ _ Hx Hs) as Hx0.
      destruct k.
      - right. by apply (scandir_files _ _ _ _ _ Hsc).
      - left. by apply (scandir_dirs _ _ _ _ _ Hsc). }
    pose proof (lookup_weaken_None _ _ _ Hnone Hsa) as Hn. congruence.
  - assert (x ∈ ds) as Hxd.
    { apply (scandir_dirs _ _ _ _ _ Hsc).
      eapply lookup_weaken; [exact (in_subtree_root _ _ _ Hq) | exact Hs]. }
    destruct (for_each_Ret_elem _ _ _ _ _ Hxd Hrest)
      as (l1 & l2 & stb & stc & _ & _ & H2 & H3).
    eapply (IH _ _ _ H2).
    eapply in_subtree_subseteq; [| exact Hq].
    pose proof (rel_for_each shrinks l2
                  (fun d => os_walk n (join top d) (remove_auto_generated E))
                  (fun d _ => shrinks_os_walk E n (join top d)) stc) as H.
    by rewrite H3 in H.
Qed.

Lemma for_each_invariant {A} (I : State -> Prop) (l : list A) (body : A -> M unit) :
  (forall x st, x ∈ l -> I st -> I (body x st).2) ->
  forall st, I st -> I (for_each l body st).2.
Proof.
  induction l as [| x l IH]; intros Hb st Hi; simpl; [done |].
  unfold bind. pose proof (Hb x st ltac:(left) Hi) as Hx.
  destruct (body x st) as [[[] | e |] st1]; simpl in *; try done.
  apply IH; [| done]. intros y s Hy. apply Hb. by right.
Qed.

Lemma for_each_returns {A} (I : State -> Prop) (l : list A) (body : A -> M unit) :
  (forall x st, x ∈ l -> I st -> (body x st).1 = Ret tt /\ I (body x st).2) ->
  forall st, I st -> (for_each l body st).1 = Ret tt /\ I (for_each l body st).2.
Proof.
  induction l as [| x l IH]; intros Hb st Hi; simpl; [done |].
  unfold bind. destruct (Hb x st ltac:(left) Hi) as [Hr Hx].
  destruct (body x st) as [r st1]; simpl in *; subst r.
  apply IH; [| done]. intros y s Hy. apply Hb. by right.
Qed.

(** On a clean subtree the walk deletes nothing, whatever the operating
    system would refuse. *)
Lemma os_walk_clean_noop n : forall top st,
  clean_subtree E (fs st) top ->
  fs (os_walk n top (remove_auto_generated E) st).2 = fs st /\
  forall e, (os_walk n top (remove_auto_generated E) st).1 <> Raise e.
Proof.
  induction n as [| n IH]; intros top st Hclean; simpl.
  { by destruct (scandir (fs st) top) as [[ds fl] |]. }
  destruct (scandir (fs st) top) as [[ds fl] |] eqn:Hsc; [| done].
  pose proof (scandir_Some_isdir _ _ _ Hsc) as Hd.
  set (st0 := emit (CallScandir top) st).
  set (I := fun s : State => fs s = fs st).
  assert (forall x, is_Some (fs st !! join top x) -> is_auto_generated E (join top x) = false)
    as Hchild.
  { intros x Hx. apply Hclean. by apply in_subtree_child. }
  assert ((remove_auto_generated E top ds fl st0).1 = Ret tt /\
          I (remove_auto_generated E top ds fl st0).2) as [Hb1 Hb2].
  { rewrite remove_auto_generated_steps. unfold bind.
    destruct (for_each_returns I ds (dir_step E top)) with (st := st0) as [Hr Hi]; [| done |].
    { intros x s Hx Hs. rewrite dir_step_eq. simpl.
      rewrite Hchild; [done |]. apply (scandir_dirs _ _ _ _ _ Hsc) in Hx. by rewrite Hx. }
    destruct (for_each ds (dir_step E top) st0) as [r st1]; simpl in *; subst r.
    apply (for_each_returns I fl (file_step E top)); [| done].
    intros x s Hx Hs. rewrite file_step_eq. simpl.
    rewrite Hchild; [done |]. apply (scandir_files _ _ _ _ _ Hsc) in Hx. by rewrite Hx. }
  unfold bind. destruct (remove_auto_generated E top ds fl st0) as [r sta].
  simpl in Hb1, Hb2. subst r.
  set (J := fun s : State => fs s = fs st).
  assert (forall x s, x ∈ ds -> J s ->
            J (os_walk n (join top x) (remove_auto_generated E) s).2 /\
            forall e, (os_walk n (join top x) (remove_auto_generated E) s).1 <> Raise e)
    as Hsub.
  { intros x s Hx Hs. unfold J in *.
    destruct (IH (join top x) s) as [H1 H2].
    - intros q Hq. rewrite Hs in Hq. apply Hclean.
      by apply (in_subtree_deeper _ top x).
    - split; [by rewrite H1 | done]. }
  split.
  - apply (for_each_invariant J); [| done]. intros x s Hx Hs. by apply Hsub.
  - clear -Hsub Hb2. fold (J sta) in Hb2. revert sta Hb2.
    induction ds as [| x ds IHd]; intros sta Hj e; simpl; [done |].
    unfold bind. destruct (Hsub x sta ltac:(left) Hj) as [H1 H2].
    destruct (os_walk n (join top x) _ sta) as [[[] | e' |] stb]; simpl in *;
      [| by destruct (H2 e') | done].
    apply IHd; [| done]. intros y s Hy. apply Hsub. by right.
Qed.

End Leaves.

(** * Failures of the backend *)




(** * The finalizer *)

Lemma extract_after_walk (E : Env) (osrc odst : option path) (o : Options)
    (c : bool) (st st1 st3 : State) :
  let s := default (src (self st)) osrc in
  let d := default (dst (self st)) odst in
  test_archive E (Some s) o st = (Ret true, st1) ->
  walk_dst E d (after_unpack E s d o st1) = (Ret tt, st3) ->
  extract E osrc odst o c st =
    (attempt_outcome E s d o st1,
     if c then
       if path_exists (fs st3) s then
         match fs st3 !! s with
         | Some File =>
             if remove_denied E (fs st3) s
             then emit (CallRemove s) (emit (CallExists s) st3)
             else emit (LogInfo (RemovedCleanup s))
                    (set_fs (delete s (fs st3)) (emit (CallRemove s) (emit (CallExists s) st3)))
         | _ => emit (CallRemove s) (emit (CallExists s) st3)
         end
       else emit (CallExists s) st3
     else st3).
Proof.
  intros s d Ht Hw. rewrite extract_eq. fold s d. rewrite Ht.
  rewrite finalizer_state. unfold cleanup_and_delete, bind. rewrite Hw.
  destruct c; [| done].
  unfold os_path_exists, os_remove, logger_info. simpl.
  destruct (path_exists (fs st3) s); [| done]. simpl.
  destruct (fs st3 !! s) as [[] |]; try done.
  by destruct (remove_denied E (fs st3) s).
Qed.



(** * Further properties of the methods *)

(** * What the walk leaves behind *)



(** X2: a second walk right after one that ended normally removes nothing
    and ends normally, even if the operating system would now refuse every
    deletion. *)
Theorem second_walk_removes_nothing (E : Env) (d : path) (st st' : State) :
  walk_dst E d st = (Ret tt, st') ->
  (walk_dst E d st').1 = Ret tt /\ fs (walk_dst E d st').2 = fs st'.
Proof.
  intros Hw.
  assert (clean_subtree E (fs st') d) as Hclean.
  { unfold walk_dst in Hw. by eapply os_walk_leaves_clean. }
  pose proof (walk_dst_fueled E d st') as Hf.
  unfold walk_dst in *.
  destruct (os_walk_clean_noop E (S (depth_bound (fs st'))) d st' Hclean) as [Hfs Hr].
  split; [| done].
  destruct (os_walk _ d _ st') as [[[] | e |] st2]; simpl in *; try done.
  by destruct (Hr e).
Qed.

Lemma second_walk_removes_nothing_witness :
  let st' := (walk_dst demo_env ["d"] (demo_state resource_fork_fs)).2 in
  fs (walk_dst demo_env ["d"] st').2 = fs st'.
Proof.
  intros st'.
  pose proof (second_walk_removes_nothing demo_env ["d"] (demo_state resource_fork_fs) st') as H.
  destruct H as [_ H]; [vm_compute; reflexivity | exact H].
Defined.

(** * Removals and their records *)

Lemma on_return_bind {A B} (R : State -> State -> Prop) `{!PreOrder R}
    (m : M A) (f : A -> M B) :
  on_return R m -> (forall a, on_return R (f a)) -> on_return R (bind m f).
Proof.
  intros Hm Hf st b st' Hb. apply bind_Ret_inv in Hb as (a & st1 & H1 & H2).
  etransitivity; [by eapply Hm | by eapply Hf].
Qed.

Lemma on_return_for_each {A} (R : State -> State -> Prop) `{!PreOrder R}
    (l : list A) (body : A -> M unit) :
  (forall x, on_return R (body x)) -> on_return R (for_each l body).
Proof.
  intros Hb. induction l as [| x l IH]; simpl.
  - unfold ret. intros st a st' [= _ <-]. reflexivity.
  - apply on_return_bind; [done | apply Hb | by intros _].
Qed.

Lemma on_return_os_walk (R : State -> State -> Prop) `{!PreOrder R}
    (body : path -> list string -> list string -> M unit) :
  (forall st p, R st (emit (CallScandir p) st)) ->
  (forall r ds fl, on_return R (body r ds fl)) ->
  forall n top, on_return R (os_walk n top body).
Proof.
  intros Hemit Hbody. induction n as [| n IH]; intros top st a st'; simpl.
  - destruct (scandir (fs st) top) as [[ds fl] |]; [done |].
    intros [= _ <-]. apply Hemit.
  - destruct (scandir (fs st) top) as [[ds fl] |]; [| intros [= _ <-]; apply Hemit].
    intros Hrun. etransitivity; [apply (Hemit st top) |].
    revert Hrun. apply on_return_bind; [done | apply Hbody |].
    intros _. apply on_return_for_each; [done |]. intros x. apply IH.
Qed.

#[global] Instance removals_marked_preorder (mark : path -> event -> Prop) :
  PreOrder (removals_marked mark).
Proof.
  split.
  - intros st. split; [done |]. exists []. split; [by rewrite app_nil_r |].
    split; [done |]. intros p Hp. by apply elem_of_nil in Hp.
  - intros st1 st2 st3 (S12 & a & Ha & C12 & G12) (S23 & b & Hb & C23 & G23).
    split; [by etransitivity |]. exists (a ++ b).
    split; [by rewrite Hb, Ha, app_assoc |]. split.
    + intros q Hq.
      destruct (decide (fs st2 !! q = fs st1 !! q)) as [Heq | Hne].
      * destruct (C23 q) as (p & e & Hp & Hin & Hm); [congruence |].
        exists p, e. split; [done |]. split; [| done]. apply elem_of_app. by right.
      * destruct (C12 q Hne) as (p & e & Hp & Hin & Hm).
        exists p, e. split; [done |]. split; [| done]. apply elem_of_app. by left.
    + intros p [Hp | Hp]%elem_of_app.
      * eapply lookup_weaken_None; [by apply G12 | done].
      * by apply G23.
Qed.

Lemma removals_marked_quiet (mark : path -> event -> Prop) (st : State)
    (evs : list event) :
  (forall p, LogInfo (RemovedAutoGenerated p) ∉ evs) ->
  removals_marked mark st (mkState (fs st) (self st) (trace st ++ evs)).
Proof.
  intros Hq. split; [done |]. exists evs. split; [done |]. split; [done |].
  intros p Hp. by destruct (Hq p).
Qed.

Section Logged.

Variable E : Env.

Ltac quiet l :=
  match goal with
  | |- removals_marked ?mk ?st _ =>
      let H := fresh in
      pose proof (removals_marked_quiet mk st l) as H;
      unfold emit; simpl; rewrite <- ?app_assoc; simpl; apply H;
      let p := fresh in let Hp := fresh in
      intros p Hp; apply list_elem_of_In in Hp; simpl in Hp;
      repeat destruct Hp as [Hp | Hp]; try discriminate; done
  end.

Lemma dir_step_marked (mark : path -> event -> Prop) root x st :
  let p := join root x in
  (mark p (CallRmtree p) \/
   (mark p (LogInfo (RemovedAutoGenerated p)) /\ (dir_step E root x st).1 = Ret tt)) ->
  removals_marked mark st (dir_step E root x st).2.
Proof.
  intros p Hm. revert Hm. rewrite dir_step_eq. fold p.
  destruct (is_auto_generated E p); simpl; [| intros _; quiet [CallIsAutoGenerated p]].
  destruct (path_exists (fs st) p); simpl;
    [| intros _; quiet [CallIsAutoGenerated p; CallExists p]].
  destruct (path_isdir (fs st) p && _); simpl; intros Hm.
  - split; [apply rmtree_subseteq |].
    exists [CallIsAutoGenerated p; CallExists p; CallRmtree p;
            LogInfo (RemovedAutoGenerated p)].
    split; [by simpl; rewrite <- !app_assoc |]. split.
    + intros q Hq. simpl in Hq. exists p. rewrite rmtree_lookup in Hq.
      destruct (decide (p `prefix_of` q)); [| done].
      destruct Hm as [Hm | [Hm _]]; eexists; (split; [done |]);
        (split; [| exact Hm]); rewrite !elem_of_cons; auto.
    + intros p' Hp'. apply list_elem_of_In in Hp'. simpl in Hp'.
      repeat destruct Hp' as [Hp' | Hp']; try discriminate; [| done].
      inversion Hp'; subst. simpl. rewrite rmtree_lookup. by rewrite decide_True.
  - destruct Hm as [Hm | [_ Hm]]; [| done].
    split; [apply rmtree_stopped_subseteq |].
    exists [CallIsAutoGenerated p; CallExists p; CallRmtree p].
    split; [by simpl; rewrite <- !app_assoc |]. split.
    + intros q Hq. simpl in Hq. exists p, (CallRmtree p).
      split; [| split; [rewrite !elem_of_cons; auto | done]].
      destruct (decide (p `prefix_of` q)) as [Hp | Hp]; [done |].
      destruct Hq. apply rmtree_stopped_lookup. by intros [? _].
    + intros p' Hp'. apply list_elem_of_In in Hp'. simpl in Hp'.
      repeat destruct Hp' as [Hp' | Hp']; try discriminate; done.
Qed.

Lemma file_step_marked (mark : path -> event -> Prop) root x st :
  let p := join root x in
  (mark p (CallRemove p) \/
   (mark p (LogInfo (RemovedAutoGenerated p)) /\ (file_step E root x st).1 = Ret tt)) ->
  removals_marked mark st (file_step E root x st).2.
Proof.
  intros p Hm. revert Hm. rewrite file_step_eq. fold p.
  destruct (is_auto_generated E p); simpl; [| intros _; quiet [CallIsAutoGenerated p]].
  destruct (path_exists (fs st) p); simpl;
    [| intros _; quiet [CallIsAutoGenerated p; CallExists p]].
  destruct (fs st !! p) as [[] |]; simpl;
    try (intros _; quiet [CallIsAutoGenerated p; CallExists p; CallRemove p]).
  destruct (remove_denied E (fs st) p); simpl;
    [intros _; quiet [CallIsAutoGenerated p; CallExists p; CallRemove p] |].
  intros Hm. split; [apply delete_subseteq |].
  exists [CallIsAutoGenerated p; CallExists p; CallRemove p;
          LogInfo (RemovedAutoGenerated p)].
  split; [by simpl; rewrite <- !app_assoc |]. split.
  - intros q Hq. simpl in Hq. exists p. destruct (decide (p = q)) as [-> | Hne].
    + destruct Hm as [Hm | [Hm _]]; eexists; (split; [done |]);
        (split; [| exact Hm]); rewrite !elem_of_cons; auto.
    + by rewrite lookup_delete_ne in Hq.
  - intros p' Hp'. apply list_elem_of_In in Hp'. simpl in Hp'.
    repeat destruct Hp' as [Hp' | Hp']; try discriminate; [| done].
    inversion Hp'; subst. simpl. apply lookup_delete_eq.
Qed.

(** However the walk ends, what changed lies at or below a path given to
    [shutil.rmtree] or [os.remove]. *)
Lemma removals_attempted_os_walk n top :
  rel (removals_marked is_attempt) (os_walk n top (remove_auto_generated E)).
Proof.
  apply (rel_os_walk (removals_marked is_attempt) (fun _ => True)); try done.
  - intros st p. quiet [CallScandir p].
  - intros r ds fl _. rewrite remove_auto_generated_steps.
    apply rel_bind; [apply _ | | intros _]; apply rel_for_each; try apply _;
      intros x _ st.
    + apply dir_step_marked. left. by left.
    + apply file_step_marked. left. by right.
Qed.

(** When the walk returns, what changed lies at or below a path with a
    removal record. *)
Lemma removals_logged_os_walk n top :
  on_return (removals_marked is_record) (os_walk n top (remove_auto_generated E)).
Proof.
  apply on_return_os_walk; [apply _ | |].
  - intros st p. quiet [CallScandir p].
  - intros r ds fl. rewrite remove_auto_generated_steps.
    apply on_return_bind; [apply _ | | intros _]; apply on_return_for_each;
      try apply _; intros x st a st' Hrun.
    + pose proof (dir_step_marked is_record r x st) as H. rewrite Hrun in H.
      apply H. right. split; [done |]. by destruct a.
    + pose proof (file_step_marked is_record r x st) as H. rewrite Hrun in H.
      apply H. right. split; [done |]. by destruct a.
Qed.

End Logged.

(** X3: what the walk of the finalizer removes, and what it records.  The
    file system only loses entries, and every path with a removal record is
    gone when the walk ends.  When the walk returns, every path that is no
    longer as before lies at or below a path with a removal record.  A walk
    that stops at a refused [shutil.rmtree] may have removed entries that
    have no record: however the walk ends, every path that is no longer as
    before lies at or below a path that was given to [shutil.rmtree] or to
    [os.remove]. *)
Theorem walk_removals_are_logged (E : Env) (d : path) (st : State) :
  let r := walk_dst E d st in
  fs r.2 ⊆ fs st /\
  exists evs, trace r.2 = trace st ++ evs /\
    (forall p, LogInfo (RemovedAutoGenerated p) ∈ evs -> fs r.2 !! p = None) /\
    (forall q, fs r.2 !! q <> fs st !! q ->
       exists p, p `prefix_of` q /\ (CallRmtree p ∈ evs \/ CallRemove p ∈ evs)) /\
    (r.1 = Ret tt -> forall q, fs r.2 !! q <> fs st !! q ->
       exists p, p `prefix_of` q /\ LogInfo (RemovedAutoGenerated p) ∈ evs).
Proof.
  intros r. subst r. unfold walk_dst.
  set (n := S (depth_bound (fs st))).
  destruct (removals_attempted_os_walk E n d st) as (Hs & evs & Ht & Hc & Hg).
  split; [done |]. exists evs. split; [done |]. split; [done |]. split.
  - intros q Hq. destruct (Hc q Hq) as (p & e & Hp & Hin & [-> | ->]); eauto.
  - intros Hr q Hq.
    destruct (os_walk n d (remove_auto_generated E) st) as [o st'] eqn:Hw.
    simpl in Hr. subst o.
    destruct (removals_logged_os_walk E n d st tt st' Hw) as (_ & evs' & Ht' & Hc' & _).
    simpl in Ht, Hq. rewrite Ht in Ht'. apply app_inv_head in Ht'. subst evs'.
    destruct (Hc' q Hq) as (p & e & Hp & Hin & ->). eauto.
Qed.

Lemma walk_removals_are_logged_witness :
  let st := demo_state half_locked_fs in
  let r := walk_dst demo_env ["d"] st in
  r.1 = Raise (OSError "rmtree") /\
  fs r.2 !! ["d"; "__MACOSX"; "x.txt"] = None /\
  (forall p, LogInfo (RemovedAutoGenerated p) ∉ trace r.2) /\
  exists p, p `prefix_of` ["d"; "__MACOSX"; "x.txt"] /\ CallRmtree p ∈ trace r.2.
Proof.
  intros st r.
  split; [vm_compute; reflexivity |]. split; [vm_compute; reflexivity |]. split.
  { intros p Hp. vm_compute in Hp. apply list_elem_of_In in Hp. simpl in Hp.
    repeat destruct Hp as [Hp | Hp]; try discriminate Hp. done. }
  destruct (walk_removals_are_logged demo_env ["d"] st) as (_ & evs & Ht & _ & Hc & _).
  destruct (Hc ["d"; "__MACOSX"; "x.txt"]) as (p & Hp & [Hin | Hin]).
  - vm_compute. discriminate.
  - exists p. split; [exact Hp |]. subst r. rewrite Ht. apply elem_of_app. by right.
  - exfalso. clear -Ht Hin.
    assert (CallRemove p ∈ trace (walk_dst demo_env ["d"] st).2) as H.
    { rewrite Ht. apply elem_of_app. by right. }
    vm_compute in H. apply list_elem_of_In in H. simpl in H.
    repeat destruct H as [H | H]; try discriminate H. done.
Defined.

(** * The deletion of the source *)

(** X4: with [cleanup], once validation has passed and the walk has ended
    normally, a source that is still a regular file and that the operating
    system lets go is removed and the removal is recorded, whether the
    backend call succeeded or raised; [extract] ends as the [try] block did,
    that is, normally unless the backend raised an exception that is no
    [PatoolError]. *)
Theorem source_is_removed_with_cleanup (E : Env) (osrc odst : option path)
    (o : Options) (st st1 st3 : State) :
  let s := default (src (self st)) osrc in
  let d := default (dst (self st)) odst in
  test_archive E (Some s) o st = (Ret true, st1) ->
  walk_dst E d (after_unpack E s d o st1) = (Ret tt, st3) ->
  fs st3 !! s = Some File -> remove_denied E (fs st3) s = false ->
  let r := extract E osrc odst o true st in
  r.1 = attempt_outcome E s d o st1 /\ fs r.2 = delete s (fs st3) /\
  last (trace r.2) = Some (LogInfo (RemovedCleanup s)).
Proof.
  intros s d Ht Hw Hs Hd r. subst r.
  rewrite (extract_after_walk E osrc odst o true st st1 st3 Ht Hw). fold s.
  unfold path_exists. rewrite Hs, Hd. simpl. by rewrite last_snoc.
Qed.

Lemma source_is_removed_with_cleanup_witness :
  let st := demo_state demo_fs in
  fs (extract demo_env (Some ["d"; "broken.zip"]) (Some ["d"]) demo_options true st).2
    !! ["d"; "broken.zip"] = None.
Proof.
  intros st.
  pose proof (source_is_removed_with_cleanup demo_env (Some ["d"; "broken.zip"])
                (Some ["d"]) demo_options st
                (test_archive demo_env (Some ["d"; "broken.zip"]) demo_options st).2
                (walk_dst demo_env ["d"]
                   (after_unpack demo_env ["d"; "broken.zip"] ["d"] demo_options
                      (test_archive demo_env (Some ["d"; "broken.zip"]) demo_options st).2)).2)
    as H.
  simpl default in H.
  destruct H as (_ & H & _); [vm_compute; reflexivity .. |].
  exact (eq_trans (f_equal (fun f : FS => f !! ["d"; "broken.zip"]) H)
           (lookup_delete_eq _ _)).
Defined.

(** X5: with [cleanup], a source that [os.remove] cannot remove, because it
    is a directory or because the operating system refuses, stays where it
    is: the [OSError] of [os.remove] is swallowed, so that [extract] ends as
    the [try] block did (normally, unless the backend raised an exception
    that is no [PatoolError]); the last event is the call to [os.remove], and
    nothing is recorded. *)
Theorem failed_source_deletion_is_silent (E : Env) (osrc odst : option path)
    (o : Options) (st st1 st3 : State) (k : kind) :
  let s := default (src (self st)) osrc in
  let d := default (dst (self st)) odst in
  test_archive E (Some s) o st = (Ret true, st1) ->
  walk_dst E d (after_unpack E s d o st1) = (Ret tt, st3) ->
  fs st3 !! s = Some k -> k = Dir \/ remove_denied E (fs st3) s = true ->
  let r := extract E osrc odst o true st in
  r.1 = attempt_outcome E s d o st1 /\ fs r.2 = fs st3 /\
  trace r.2 = trace st3 ++ [CallExists s; CallRemove s].
Proof.
  intros s d Ht Hw Hs Hk r. subst r.
  rewrite (extract_after_walk E osrc odst o true st st1 st3 Ht Hw). fold s.
  unfold path_exists. rewrite Hs.
  assert (forall (a : outcome unit) st4,
            st4 = emit (CallRemove s) (emit (CallExists s) st3) ->
            (a, st4).1 = a /\ fs (a, st4).2 = fs st3 /\
            trace (a, st4).2 = trace st3 ++ [CallExists s; CallRemove s]) as Hgoal.
  { intros a st4 ->. simpl. by rewrite <- app_assoc. }
  destruct Hk as [-> | Hd]; [by apply Hgoal |].
  destruct k; [| by apply Hgoal]. rewrite Hd. by apply Hgoal.
Qed.

Lemma failed_source_deletion_is_silent_witness :
  let st := demo_state source_dir_fs in
  fs (extract demo_env None None demo_options true st).2 !! ["d"; "outer.zip"] = Some Dir.
Proof.
  intros st.
  pose proof (failed_source_deletion_is_silent demo_env None None demo_options st
                (test_archive demo_env (Some ["d"; "outer.zip"]) demo_options st).2
                (walk_dst demo_env ["d"]
                   (after_unpack demo_env ["d"; "outer.zip"] ["d"] demo_options
                      (test_archive demo_env (Some ["d"; "outer.zip"]) demo_options st).2)).2
                Dir) as H.
  simpl default in H.
  destruct H as (_ & H & _);
    [vm_compute; reflexivity | vm_compute; reflexivity | vm_compute; reflexivity
    | by left |].
  exact (eq_trans (f_equal (fun f : FS => f !! ["d"; "outer.zip"]) H)
           ltac:(vm_compute; reflexivity)).
Defined.



(** * The descent and failures *)

Lemma extends_test_archive (E : Env) osrc o : rel extends (test_archive E osrc o).
Proof.
  intros st. rewrite test_archive_eq. unfold extends.
  destruct (is_archive E (fs st) _); [destruct (probe E o _ (fs st)) as [[] |] |]; simpl;
    rewrite <- ?app_assoc; by apply prefix_app_r.
Qed.

Lemma extends_extract (E : Env) osrc odst o c : rel extends (extract E osrc odst o c).
Proof.
  intros st. rewrite extract_eq.
  pose proof (extends_test_archive E (Some (default (src (self st)) osrc)) o st) as Ht.
  destruct (test_archive E _ o st) as [[[] | e |] st1]; simpl in *; try done.
  etransitivity; [exact Ht |]. etransitivity; [| apply extends_finalizer].
  unfold extends, after_unpack. destruct (unpack E o _ _ (fs st1)).2 as [[] |]; simpl;
    rewrite <- ?app_assoc; by apply prefix_app_r.
Qed.

Lemma extends_extractall (E : Env) o c :
  forall fuel osrc odst, rel extends (extractall E fuel osrc odst o c).
Proof.
  induction fuel as [| n IH]; intros osrc odst; simpl; [by intros st |].
  apply rel_bind; [apply _ | by destruct osrc; intros st |]. intros s.
  apply rel_bind; [apply _ | by destruct odst; intros st |]. intros d.
  apply rel_bind; [apply _ | apply extends_extract |]. intros _.
  apply rel_bind; [apply _ | intros st; apply extends_emit |].
  intros ex. apply rel_if; [by apply rel_ret, _ |].
  apply rel_bind; [apply _ | intros st; apply extends_emit |].
  intros isd. apply rel_if; [by apply rel_ret, _ |].
  apply rel_bind; [apply _ | intros st; apply extends_emit |].
  intros files. apply rel_for_each; [apply _ |]. intros file _.
  apply rel_bind; [apply _ | intros st; apply extends_emit |].
  intros a. apply rel_if; [apply IH | by apply rel_ret, _].
Qed.

Lemma for_each_emits {A} (ev : A -> event) (l : list A) (body : A -> M unit) st st' x :
  (forall y, rel extends (body y)) ->
  (forall y s, emitted (ev y) s (body y s).2) ->
  for_each l body st = (Ret tt, st') -> x ∈ l -> emitted (ev x) st st'.
Proof.
  intros Hext Hfirst Hrun Hx.
  destruct (for_each_Ret_elem _ _ _ _ _ Hx Hrun) as (l1 & l2 & sta & stb & _ & H1 & H2 & H3).
  apply (emitted_mono _ st sta stb st').
  - pose proof (rel_for_each extends l1 body (fun y _ => Hext y) st) as H.
    by rewrite H1 in H.
  - pose proof (Hfirst x sta) as H. by rewrite H2 in H.
  - pose proof (rel_for_each extends l2 body (fun y _ => Hext y) stb) as H.
    by rewrite H3 in H.
Qed.

Lemma descend_classifies (E : Env) (n : nat) (dir : path) (o : Options) (c : bool)
    (files : list string) (st st' : State) (file : string) :
  descend E n dir o c files st = (Ret tt, st') -> file ∈ files ->
  emitted (CallIsArchive (join dir file)) st st'.
Proof.
  unfold descend. apply (for_each_emits (fun f => CallIsArchive (join dir f))).
  - intros y. apply rel_bind; [apply _ | intros s; apply extends_emit |].
    intros a. apply rel_if; [apply extends_extractall | by apply rel_ret, _].
  - intros y s. unfold bind, patoolib_is_archive. simpl.
    match goal with |- emitted _ _ (?m ?s1).2 =>
      assert (extends s1 (m s1).2) as [tl Htl]
    end.
    { destruct (is_archive E (fs s) (join dir y));
        [apply extends_extractall | reflexivity]. }
    exists [], tl. rewrite Htl. simpl. by rewrite <- app_assoc.
Qed.

(** X6: [extractall] does not look at what [extract] achieved: when the
    source fails validation but [dst/stem(src)] is a directory, the archives
    in that directory are still extracted. *)
Theorem extractall_descends_after_failed_validation (E : Env) (n : nat)
    (osrc odst : option path) (o : Options) (c : bool) (st : State) :
  let s := default (src (self st)) osrc in
  let d := default (dst (self st)) odst in
  let extract_dir := join d (splitext_root (basename s)) in
  let st1 := (test_archive E (Some s) o st).2 in
  (test_archive E (Some s) o st).1 = Ret false ->
  path_isdir (fs st) extract_dir = true ->
  extractall E (S n) osrc odst o c st =
    descend E n extract_dir o c (listdir (fs st) extract_dir)
      (emit (CallListdir extract_dir)
         (emit (CallIsdir extract_dir) (emit (CallExists extract_dir) st1))).
Proof.
  intros s d extract_dir st1 Hf Hd.
  rewrite extractall_unfold. fold s d extract_dir.
  assert (extract E (Some s) (Some d) o c st = (Ret tt, st1)) as ->.
  { rewrite extract_eq. simpl default. subst st1.
    by destruct (test_archive E (Some s) o st) as [[[] | e |] st2]. }
  assert (fs st1 = fs st) as Hfs by apply test_archive_same_fs.
  cbn [fst snd]. by rewrite Hfs, Hd.
Qed.

Lemma extractall_descends_after_failed_validation_witness :
  let st := demo_state stale_output_fs in
  fs (extractall demo_env 3 (Some ["d"; "notes.txt"]) (Some ["d"]) demo_options false st).2
    !! ["d"; "notes"; "inner"; "leaf.txt"] = Some File.
Proof.
  intros st.
  pose proof (extractall_descends_after_failed_validation demo_env 2
                (Some ["d"; "notes.txt"]) (Some ["d"]) demo_options false st) as H.
  simpl default in H.
  exact (eq_trans
           (f_equal (fun r : outcome unit * State => fs r.2 !! ["d"; "notes"; "inner"; "leaf.txt"])
              (H ltac:(vm_compute; reflexivity) ltac:(vm_compute; reflexivity)))
           ltac:(vm_compute; reflexivity)).
Defined.

(** X7: when [extractall] returns normally and the output directory exists,
    every entry the directory had after the extraction of the source has
    been put to [is_archive], whatever happened to the entries before it: a
    nested archive that fails does not keep the later ones from their
    turn. *)
Theorem every_child_gets_its_turn (E : Env) (n : nat)
    (osrc odst : option path) (o : Options) (c : bool) (st st' : State) (file : string) :
  let s := default (src (self st)) osrc in
  let d := default (dst (self st)) odst in
  let extract_dir := join d (splitext_root (basename s)) in
  let st1 := (extract E (Some s) (Some d) o c st).2 in
  extractall E (S n) osrc odst o c st = (Ret tt, st') ->
  path_isdir (fs st1) extract_dir = true ->
  is_Some (fs st1 !! join extract_dir file) ->
  emitted (CallIsArchive (join extract_dir file)) st st'.
Proof.
  intros s d extract_dir st1 Hrun Hd Hfile.
  rewrite extractall_unfold in Hrun. fold s d extract_dir st1 in Hrun.
  destruct (extract E (Some s) (Some d) o c st).1 as [[] | e |]; [| done | done].
  rewrite Hd in Hrun.
  apply (emitted_mono _ st
           (emit (CallListdir extract_dir)
              (emit (CallIsdir extract_dir) (emit (CallExists extract_dir) st1))) st' st').
  - transitivity st1; [apply extends_extract |].
    unfold extends. simpl. rewrite <- !app_assoc. by apply prefix_app_r.
  - eapply descend_classifies; [exact Hrun |]. by apply elem_of_listdir.
  - done.
Qed.

Lemma every_child_gets_its_turn_witness :
  let st := demo_state siblings_fs in
  emitted (CallIsArchive ["d"; "pack"; "inner.zip"]) st
    (extractall demo_env 3 (Some ["d"; "pack.zip"]) (Some ["d"]) demo_options false st).2.
Proof.
  intros st.
  pose proof (every_child_gets_its_turn demo_env 2 (Some ["d"; "pack.zip"]) (Some ["d"])
                demo_options false st
                (extractall demo_env 3 (Some ["d"; "pack.zip"]) (Some ["d"])
                   demo_options false st).2 "inner.zip") as H.
  simpl default in H.
  apply H.
  - vm_compute. reflexivity.
  - vm_compute. reflexivity.
  - vm_compute. by eexists.
Defined.

(** * The order of the calls *)

Lemma ordered_after_nil prev : ordered_after prev [].
Proof. intros l1 e l2 e0 H. by destruct l1. Qed.

Lemma ordered_after_cons prev e l :
  (forall e0, predecessor e = Some e0 -> prev = Some e0) ->
  ordered_after (Some e) l -> ordered_after prev (e :: l).
Proof.
  intros Hp Hl l1 e' l2 e0 Heq He0. destruct l1 as [| e1 l1]; inversion Heq; subst.
  - rewrite app_nil_r. rewrite (Hp e0 He0). done.
  - specialize (Hl l1 e' l2 e0 eq_refl He0). simpl in Hl.
    destruct prev; simpl; [| done].
    destruct l1 as [| x l1 _] using rev_ind; [done |].
    rewrite app_comm_cons, last_snoc in Hl.
    by rewrite !app_comm_cons, last_snoc.
Qed.

Lemma in_order_app (a b : list event) : in_order a -> in_order b -> in_order (a ++ b).
Proof.
  intros Ha Hb l1 e l2 e0 Heq He. simpl.
  symmetry in Heq. apply app_eq_inv in Heq as [(k & -> & Hk) | (k & -> & Hk)].
  - specialize (Hb k e l2 e0 Hk He). simpl in Hb.
    destruct k as [| x k _] using rev_ind; [done |].
    rewrite last_snoc in Hb. by rewrite app_assoc, last_snoc.
  - destruct k as [| e' k].
    + simpl in Hk. subst b. by specialize (Hb [] e l2 e0 eq_refl He).
    + simpl in Hk. inversion Hk; subst. by apply (Ha l1 e' k e0).
Qed.

#[global] Instance added_in_order_preorder : PreOrder (added in_order).
Proof.
  split.
  - intros st. exists []. split; [by rewrite app_nil_r | apply ordered_after_nil].
  - intros st1 st2 st3 (a & Ha & Ga) (b & Hb & Gb). exists (a ++ b).
    split; [by rewrite Hb, Ha, app_assoc | by apply in_order_app].
Qed.

(** The events of a block, given in full, are in order. *)
Ltac in_order_list l :=
  exists l; split; [by simpl; rewrite <- ?app_assoc |];
  unfold in_order;
  repeat (apply ordered_after_cons; [intros ? [=]; by subst |]);
  apply ordered_after_nil.

Section Order.

Variable E : Env.

Lemma in_order_dir_step root x : rel (added in_order) (dir_step E root x).
Proof.
  intros st. rewrite dir_step_eq. set (p := join root x).
  destruct (is_auto_generated E p); simpl; [| in_order_list [CallIsAutoGenerated p]].
  destruct (path_exists (fs st) p); simpl;
    [| in_order_list [CallIsAutoGenerated p; CallExists p]].
  destruct (path_isdir (fs st) p && _); simpl.
  - in_order_list [CallIsAutoGenerated p; CallExists p; CallRmtree p;
                   LogInfo (RemovedAutoGenerated p)].
  - in_order_list [CallIsAutoGenerated p; CallExists p; CallRmtree p].
Qed.

Lemma in_order_file_step root x : rel (added in_order) (file_step E root x).
Proof.
  intros st. rewrite file_step_eq. set (p := join root x).
  destruct (is_auto_generated E p); simpl; [| in_order_list [CallIsAutoGenerated p]].
  destruct (path_exists (fs st) p); simpl;
    [| in_order_list [CallIsAutoGenerated p; CallExists p]].
  destruct (fs st !! p) as [[] |]; simpl;
    try in_order_list [CallIsAutoGenerated p; CallExists p; CallRemove p].
  destruct (remove_denied E (fs st) p); simpl.
  - in_order_list [CallIsAutoGenerated p; CallExists p; CallRemove p].
  - in_order_list [CallIsAutoGenerated p; CallExists p; CallRemove p;
                   LogInfo (RemovedAutoGenerated p)].
Qed.

Lemma in_order_finalizer s d c : rel (added in_order) (finalizer E s d c).
Proof.
  apply rel_try_except_oserror; [apply _ | | by apply rel_ret, _].
  unfold cleanup_and_delete. apply rel_bind; [apply _ | |].
  - intros st. apply (rel_os_walk (added in_order) (fun _ => True)); try done.
    + intros st0 p. in_order_list [CallScandir p].
    + intros r ds fl _. rewrite remove_auto_generated_steps.
      apply rel_bind; [apply _ | | intros _]; apply rel_for_each; try apply _; intros x _.
      * apply in_order_dir_step.
      * apply in_order_file_step.
  - intros _. destruct c; [| by apply rel_ret, _].
    intros st. unfold bind, os_path_exists, os_remove, logger_info. simpl.
    destruct (path_exists (fs st) s); simpl; [| in_order_list [CallExists s]].
    destruct (fs st !! s) as [[] |]; simpl;
      try in_order_list [CallExists s; CallRemove s].
    destruct (remove_denied E (fs st) s); simpl.
    + in_order_list [CallExists s; CallRemove s].
    + in_order_list [CallExists s; CallRemove s; LogInfo (RemovedCleanup s)].
Qed.

Lemma in_order_extract osrc odst o c : rel (added in_order) (extract E osrc odst o c).
Proof.
  intros st. rewrite extract_eq, test_archive_eq.
  set (s := default (src (self st)) osrc). set (d := default (dst (self st)) odst).
  simpl default. fold s.
  destruct (is_archive E (fs st) s); simpl;
    [| in_order_list [CallIsArchive s; LogError (NotValidArchive s)]].
  destruct (probe E o s (fs st)) as [[msg | msg | msg] |]; simpl.
  { in_order_list [CallIsArchive s; CallTestArchive s o; LogError (FailedTest s msg)]. }
  { in_order_list [CallIsArchive s; CallTestArchive s o]. }
  { in_order_list [CallIsArchive s; CallTestArchive s o]. }
  etransitivity; [| apply in_order_finalizer].
  unfold after_unpack. simpl.
  destruct (unpack E o s d (fs st)).2 as [[msg | msg | msg] |]; simpl.
  - in_order_list [CallIsArchive s; CallTestArchive s o; CallExtractArchive s d o;
                   LogError (FailedExtract s msg)].
  - in_order_list [CallIsArchive s; CallTestArchive s o; CallExtractArchive s d o].
  - in_order_list [CallIsArchive s; CallTestArchive s o; CallExtractArchive s d o].
  - in_order_list [CallIsArchive s; CallTestArchive s o; CallExtractArchive s d o].
Qed.

Lemma in_order_extractall o c :
  forall fuel osrc odst, rel (added in_order) (extractall E fuel osrc odst o c).
Proof.
  induction fuel as [| n IH]; intros osrc odst; simpl; [by intros st |].
  apply rel_bind; [apply _ | by destruct osrc; intros st |]. intros s.
  apply rel_bind; [apply _ | by destruct odst; intros st |]. intros d.
  apply rel_bind; [apply _ | apply in_order_extract |]. intros _.
  apply rel_bind; [apply _ | intros st; in_order_list [CallExists (join d (splitext_root (basename s)))] |].
  intros ex. apply rel_if; [by apply rel_ret, _ |].
  apply rel_bind; [apply _ | intros st; in_order_list [CallIsdir (join d (splitext_root (basename s)))] |].
  intros isd. apply rel_if; [by apply rel_ret, _ |].
  apply rel_bind; [apply _ | intros st; in_order_list [CallListdir (join d (splitext_root (basename s)))] |].
  intros files. apply rel_for_each; [apply _ |]. intros file _.
  apply rel_bind; [apply _ | intros st; in_order_list [CallIsArchive (join (join d (splitext_root (basename s))) file)] |].
  intros a. apply rel_if; [apply IH | by apply rel_ret, _].
Qed.

End Order.

(** X8: in the events of a whole run of [extractall], however it ends, the
    backend is asked to extract a path only right after it was asked to
    probe that path with the same options, which it is asked only right
    after [is_archive] was called on that path; and [shutil.rmtree] and
    [os.remove] are called only right after [os.path.exists] on the same
    path. *)
Theorem calls_come_in_order (E : Env) (fuel : nat) (osrc odst : option path)
    (o : Options) (c : bool) (st : State) :
  exists evs, trace (extractall E fuel osrc odst o c st).2 = trace st ++ evs /\
    forall l1 e l2, evs = l1 ++ e :: l2 ->
      match e with
      | CallExtractArchive s _ o' => last l1 = Some (CallTestArchive s o')
      | CallTestArchive p _ => last l1 = Some (CallIsArchive p)
      | CallRmtree p | CallRemove p => last l1 = Some (CallExists p)
      | _ => True
      end.
Proof.
  destruct (in_order_extractall E o c fuel osrc odst st) as (evs & Ht & Ho).
  exists evs. split; [done |]. intros l1 e l2 Heq.
  specialize (Ho l1 e l2). simpl in Ho.
  destruct e; try done; by apply (Ho _ Heq).
Qed.

(** * Where the calls go *)

Lemma added_Forall_preorder (P : event -> Prop) : PreOrder (added (Forall P)).
Proof.
  split.
  - intros st. exists []. split; [by rewrite app_nil_r | done].
  - intros st1 st2 st3 (a & Ha & Ga) (b & Hb & Gb). exists (a ++ b).
    split; [by rewrite Hb, Ha, app_assoc | by apply Forall_app].
Qed.

Lemma added_Forall_emit (P : event -> Prop) (e : event) (st : State) :
  P e -> added (Forall P) st (emit e st).
Proof. intros He. exists [e]. split; [done | by constructor]. Qed.

Lemma added_Forall_emit_fs (P : event -> Prop) (e : event) (f : FS) (st : State) :
  P e -> added (Forall P) st (set_fs f (emit e st)).
Proof. intros He. exists [e]. split; [done | by constructor]. Qed.

Lemma added_Forall_weaken (P Q : event -> Prop) {A} (m : M A) :
  (forall e, P e -> Q e) -> rel (added (Forall P)) m -> rel (added (Forall Q)) m.
Proof.
  intros HPQ Hm st. destruct (Hm st) as (evs & Ht & Hf).
  exists evs. split; [done |]. eapply Forall_impl; eauto.
Qed.

(** The walk under a relation kept by the listing of the directories it
    reaches. *)
Lemma rel_os_walk_below (R : State -> State -> Prop) `{!PreOrder R}
    (G : path -> Prop) (body : path -> list string -> list string -> M unit) :
  (forall st p, G p -> R st (emit (CallScandir p) st)) ->
  (forall r x, G r -> G (join r x)) ->
  (forall r ds fl, G r -> rel R (body r ds fl)) ->
  forall n top, G top -> rel R (os_walk n top body).
Proof.
  intros Hemit HG Hbody. induction n as [| n IH]; intros top Htop st; simpl.
  - destruct (scandir (fs st) top) as [[ds fl] |]; simpl; by apply Hemit.
  - destruct (scandir (fs st) top) as [[ds fl] |]; simpl; [| by apply Hemit].
    etransitivity; [by apply (Hemit st top) |].
    apply rel_bind; [done | by apply Hbody |].
    intros _. apply rel_for_each; [done |]. intros x _. apply IH. by apply HG.
Qed.

Lemma below_join (d r : path) (x : string) :
  d `prefix_of` r -> d `prefix_of` join r x /\ join r x <> d.
Proof.
  intros Hr. split; [etransitivity; [exact Hr | apply prefix_join] |].
  intros Heq. apply prefix_length in Hr. apply (f_equal length) in Heq.
  unfold join in Heq. rewrite length_app in Heq. simpl in Heq. lia.
Qed.

Lemma confined_nested (o : Options) (c : bool) (s d d' : path) (file : string) (e : event) :
  d `prefix_of` d' -> confined o c (join d' file) d' e -> confined o c s d e.
Proof.
  intros Hd. destruct e; simpl; try done.
  - intros [-> Hp]. split; [done | by etransitivity].
  - intros [Hp Hne]. split; [by etransitivity |].
    intros ->. apply Hne. by apply (anti_symm prefix).
  - intros Hp. by etransitivity.
  - intros [Hp Hne]. split; [by etransitivity |].
    intros ->. apply Hne. by apply (anti_symm prefix).
  - intros [[Hp Hne] | [-> ->]]; left.
    + split; [by etransitivity |].
      intros ->. apply Hne. by apply (anti_symm prefix).
    + by apply below_join.
Qed.

#[global] Instance confined_preorder o c s d : PreOrder (added (Forall (confined o c s d))).
Proof. apply added_Forall_preorder. Qed.

Section Confined.

Variable E : Env.
Variables (o : Options) (c : bool).

Lemma confined_finalizer s d : rel (added (Forall (confined o c s d))) (finalizer E s d c).
Proof.
  apply rel_try_except_oserror; [apply _ | | by apply rel_ret, _].
  unfold cleanup_and_delete. apply rel_bind; [apply _ | |].
  - intros st.
    apply (rel_os_walk_below (added (Forall (confined o c s d)))
             (fun r => d `prefix_of` r)); try done.
    + intros st0 p Hp. by apply added_Forall_emit.
    + intros r x Hr. by apply below_join.
    + intros r ds fl Hr. rewrite remove_auto_generated_steps.
      apply rel_bind; [apply _ | | intros _]; apply rel_for_each; try apply _; intros x _.
      * apply rel_bind;
          [apply _ | intros st0; apply added_Forall_emit; by apply below_join |].
        intros g. apply rel_if; [| by apply rel_ret, _].
        apply rel_bind; [apply _ | intros st0; by apply added_Forall_emit |].
        intros ex. apply rel_if; [| by apply rel_ret, _].
        apply rel_bind; [apply _ | | intros _ st0; by apply added_Forall_emit].
        intros st0. unfold shutil_rmtree. destruct (path_isdir _ _ && _);
          apply added_Forall_emit_fs; by apply below_join.
      * apply rel_bind;
          [apply _ | intros st0; apply added_Forall_emit; by apply below_join |].
        intros g. apply rel_if; [| by apply rel_ret, _].
        apply rel_bind; [apply _ | intros st0; by apply added_Forall_emit |].
        intros ex. apply rel_if; [| by apply rel_ret, _].
        apply rel_bind; [apply _ | | intros _ st0; by apply added_Forall_emit].
        intros st0. unfold os_remove.
        destruct (fs st0 !! join r x) as [[] |]; [destruct (remove_denied E _ _) | |];
          [apply added_Forall_emit | apply added_Forall_emit_fs
          | apply added_Forall_emit | apply added_Forall_emit];
          left; by apply below_join.
  - intros _. destruct c eqn:Hc; [| by apply rel_ret, _].
    apply rel_bind; [apply _ | intros st0; by apply added_Forall_emit |].
    intros ex. apply rel_if; [| by apply rel_ret, _].
    apply rel_bind; [apply _ | | intros _ st0; by apply added_Forall_emit].
    intros st0. unfold os_remove.
    destruct (fs st0 !! s) as [[] |]; [destruct (remove_denied E _ _) | |];
      [apply added_Forall_emit | apply added_Forall_emit_fs
      | apply added_Forall_emit | apply added_Forall_emit];
      by right.
Qed.

Lemma confined_extract s d :
  rel (added (Forall (confined o c s d))) (extract E (Some s) (Some d) o c).
Proof.
  intros st. rewrite extract_eq, test_archive_eq. simpl default.
  destruct (is_archive E (fs st) s); simpl.
  2: { etransitivity; by apply added_Forall_emit. }
  destruct (probe E o s (fs st)) as [[msg | msg | msg] |]; simpl.
  { etransitivity; [| by apply added_Forall_emit].
    etransitivity; by apply added_Forall_emit. }
  { etransitivity; by apply added_Forall_emit. }
  { etransitivity; by apply added_Forall_emit. }
  etransitivity; [| apply confined_finalizer].
  unfold after_unpack.
  transitivity (emit (CallTestArchive s o) (emit (CallIsArchive s) st)).
  { etransitivity; by apply added_Forall_emit. }
  destruct (unpack E o s d _).2 as [[msg | msg | msg] |]; simpl.
  - etransitivity; [apply added_Forall_emit_fs | by apply added_Forall_emit]. by simpl.
  - apply added_Forall_emit_fs. by simpl.
  - apply added_Forall_emit_fs. by simpl.
  - apply added_Forall_emit_fs. by simpl.
Qed.

Lemma confined_extractall : forall fuel s d,
  rel (added (Forall (confined o c s d))) (extractall E fuel (Some s) (Some d) o c).
Proof.
  induction fuel as [| n IH]; intros s d st; [by simpl |].
  rewrite extractall_unfold. simpl default.
  set (extract_dir := join d (splitext_root (basename s))).
  pose proof (confined_extract s d st) as H1.
  destruct (extract E (Some s) (Some d) o c st) as [[[] | e |] st1];
    cbn [fst snd] in *; [| done | done].
  destruct (path_isdir (fs st1) extract_dir).
  - etransitivity; [exact H1 |].
    etransitivity; [by apply (added_Forall_emit _ (CallExists extract_dir)) |].
    etransitivity; [by apply (added_Forall_emit _ (CallIsdir extract_dir)) |].
    etransitivity; [by apply (added_Forall_emit _ (CallListdir extract_dir)) |].
    unfold descend. apply rel_for_each; [apply _ |]. intros file _.
    apply rel_bind; [apply _ | intros st0; by apply added_Forall_emit |].
    intros a. apply rel_if; [| by apply rel_ret, _].
    eapply added_Forall_weaken; [| apply IH].
    intros e. apply confined_nested. apply prefix_join.
  - etransitivity; [exact H1 |]. simpl. unfold no_descent.
    destruct (path_exists (fs st1) extract_dir).
    + etransitivity; by apply added_Forall_emit.
    + by apply added_Forall_emit.
Qed.

End Confined.

(** X9: in a whole run of [extractall], however deep it goes and however it
    ends, the backend always gets the options of the first call and unpacks
    into the destination or a directory below it; the walks list only the
    destination and directories below it; [is_auto_generated] is asked, and
    [shutil.rmtree] called, only on paths strictly below the destination, and
    [os.remove] only on such paths or, with [cleanup], on the source of the
    first call. *)
Theorem calls_stay_in_destination (E : Env) (fuel : nat) (osrc odst : option path)
    (o : Options) (c : bool) (st : State) :
  let s := default (src (self st)) osrc in
  let d := default (dst (self st)) odst in
  exists evs, trace (extractall E fuel osrc odst o c st).2 = trace st ++ evs /\
    forall e, e ∈ evs ->
      match e with
      | CallTestArchive _ o' => o' = o
      | CallExtractArchive _ d' o' => o' = o /\ d `prefix_of` d'
      | CallScandir p => d `prefix_of` p
      | CallIsAutoGenerated p | CallRmtree p => d `prefix_of` p /\ p <> d
      | CallRemove p => (d `prefix_of` p /\ p <> d) \/ (c = true /\ p = s)
      | _ => True
      end.
Proof.
  intros s d.
  assert (extractall E fuel osrc odst o c st =
          extractall E fuel (Some s) (Some d) o c st) as ->.
  { destruct fuel; by destruct osrc, odst. }
  destruct (confined_extractall E o c fuel s d st) as (evs & Ht & Hf).
  exists evs. split; [done |]. intros e He.
  rewrite Forall_forall in Hf. exact (Hf e He).
Qed.

(** * Without [cleanup] *)

#[global] Instance keeps_genuine_preorder (E : Env) : PreOrder (keeps_genuine E).
Proof.
  split; unfold keeps_genuine.
  - by intros st q k.
  - intros st1 st2 st3 H12 H23 q k Hq Hk. apply H23; [done |]. by apply H12.
Qed.

Lemma never_overwrites_additive (E : Env) : additive (never_overwrites E).
Proof. intros o s d f. simpl. apply map_union_subseteq_l. Qed.

Section Genuine.

Variable E : Env.
Hypothesis Hadd : additive E.

Lemma keeps_genuine_same_fs st st' : fs st' = fs st -> keeps_genuine E st st'.
Proof. intros Hfs q k _. by rewrite Hfs. Qed.

Lemma keeps_genuine_extract osrc odst o :
  rel (keeps_genuine E) (extract E osrc odst o false).
Proof.
  intros st. rewrite extract_eq.
  pose proof (test_archive_same_fs E (Some (default (src (self st)) osrc)) o st) as Hfs.
  destruct (test_archive E _ o st) as [[[] | e |] st1]; simpl in *;
    try by apply keeps_genuine_same_fs.
  rewrite finalizer_state. unfold cleanup_and_delete, bind.
  set (st2 := after_unpack E _ _ o st1).
  assert (keeps_genuine E st st2) as H2.
  { intros q k _ Hq. subst st2. unfold after_unpack.
    assert (fs st ⊆ (unpack E o (default (src (self st)) osrc)
                       (default (dst (self st)) odst) (fs st1)).1) as Hsub.
    { unfold same_fs in Hfs. rewrite Hfs. apply Hadd. }
    pose proof (lookup_weaken _ _ _ _ Hq Hsub) as Hq'.
    by destruct (unpack E o _ _ (fs st1)).2 as [[] |]. }
  etransitivity; [exact H2 |].
  assert (keeps_genuine E st2 (walk_dst E (default (dst (self st)) odst) st2).2) as Hw.
  { intros q k Hg Hq. unfold walk_dst.
    rewrite (os_walk_frame E _ _ st2 q); [done |].
    intros (p & _ & _ & Hp & Hart). by rewrite (Hg p Hp) in Hart. }
  by destruct (walk_dst E _ st2) as [[[] | e |] st3].
Qed.

Lemma keeps_genuine_extractall o :
  forall fuel osrc odst, rel (keeps_genuine E) (extractall E fuel osrc odst o false).
Proof.
  induction fuel as [| n IH]; intros osrc odst; simpl; [by intros st |].
  apply rel_bind; [apply _ | by destruct osrc; intros st |]. intros s.
  apply rel_bind; [apply _ | by destruct odst; intros st |]. intros d.
  apply rel_bind; [apply _ | apply keeps_genuine_extract |]. intros _.
  apply rel_bind; [apply _ | by intros st; apply keeps_genuine_same_fs |].
  intros ex. apply rel_if; [by apply rel_ret, _ |].
  apply rel_bind; [apply _ | by intros st; apply keeps_genuine_same_fs |].
  intros isd. apply rel_if; [by apply rel_ret, _ |].
  apply rel_bind; [apply _ | by intros st; apply keeps_genuine_same_fs |].
  intros files. apply rel_for_each; [apply _ |]. intros file _.
  apply rel_bind; [apply _ | by intros st; apply keeps_genuine_same_fs |].
  intros a. apply rel_if; [apply IH | by apply rel_ret, _].
Qed.

End Genuine.

(** X10: without [cleanup], and with a backend that only adds entries, a
    whole run of [extractall] keeps every entry that is not auto-generated
    and does not lie below an auto-generated directory: the source, the
    nested archives and everything unpacked before are still there, of the
    same kind. *)
Theorem nothing_genuine_is_lost_without_cleanup (E : Env) (fuel : nat)
    (osrc odst : option path) (o : Options) (st : State) (q : path) (k : kind) :
  additive E ->
  (forall p, p `prefix_of` q -> is_auto_generated E p = false) ->
  fs st !! q = Some k ->
  fs (extractall E fuel osrc odst o false st).2 !! q = Some k.
Proof.
  intros Hadd Hq Hk. by apply (keeps_genuine_extractall E Hadd o fuel osrc odst st).
Qed.

Lemma nothing_genuine_is_lost_without_cleanup_witness :
  fs (extractall (never_overwrites demo_env) 4 None None demo_options false
        (demo_state demo_fs)).2 !! ["d"; "outer.zip"] = Some File.
Proof.
  apply (nothing_genuine_is_lost_without_cleanup (never_overwrites demo_env) 4 None None
           demo_options (demo_state demo_fs) ["d"; "outer.zip"] File).
  - apply never_overwrites_additive.
  - intros p Hp.
    assert (p = take (length p) ["d"; "outer.zip"]) as ->.
    { destruct Hp as [k ->]. by rewrite take_app_length. }
    destruct (length p) as [| [| [| n]]]; reflexivity.
  - vm_compute. reflexivity.
Defined.

(** * The name of the output directory *)

Lemma before_last_dot_dot_free (s : string) :
  dot_free s = true -> before_last_dot s = None.
Proof.
  induction s as [| c s IH]; simpl; [done |].
  intros [Hc Hs]%andb_true_iff. rewrite (IH Hs).
  by destruct (Ascii.eqb c "."%char).
Qed.

Lemma before_last_dot_append (base ext : string) :
  dot_free ext = true ->
  before_last_dot (base ++ String "."%char ext)%string = Some base.
Proof.
  intros Hext. induction base as [| c base IH]; simpl.
  - by rewrite (before_last_dot_dot_free ext Hext).
  - by rewrite IH.
Qed.

(** X11: only the last extension is dropped from the name of the source to
    get the name of the output directory, and a name that starts with dots
    keeps them: for [base.ext] with a dot-free [ext], the directory looked at
    is [dst/base] if [base] has a character other than a dot and
    [dst/base.ext] if not, and a name without a dot is kept whole.  So for
    [a.tar.gz] the directory is [dst/a.tar]. *)
Theorem output_directory_name (d dir : path) (base ext : string) :
  dot_free ext = true ->
  join d (splitext_root (basename (join dir (base ++ String "."%char ext)%string))) =
    join d (if all_dots base then (base ++ String "."%char ext)%string else base) /\
  join d (splitext_root (basename (join dir ext))) = join d ext.
Proof.
  intros Hext. rewrite !basename_join. unfold splitext_root.
  rewrite (before_last_dot_append base ext Hext).
  by rewrite (before_last_dot_dot_free ext Hext).
Qed.

Lemma output_directory_name_witness :
  join ["d"] (splitext_root (basename ["src"; "a.tar.gz"])) = ["d"; "a.tar"].
Proof.
  exact (proj1 (output_directory_name ["d"] ["src"] "a.tar" "gz" eq_refl)).
Defined.

(** * What the descent meets *)

(** X13: when the walk of the finalizer has ended normally and the
    destination is a directory, the output directory that [extractall] then
    lists is not auto-generated and holds no auto-generated entry: such
    entries, archives or not, are removed before the descent and never
    handed to the backend. *)
Theorem descent_meets_nothing_auto_generated (E : Env) (s d : path)
    (o : Options) (c : bool) (st st1 st3 : State) (file : string) :
  let extract_dir := join d (splitext_root (basename s)) in
  test_archive E (Some s) o st = (Ret true, st1) ->
  walk_dst E d (after_unpack E s d o st1) = (Ret tt, st3) ->
  let st4 := (extract E (Some s) (Some d) o c st).2 in
  fs st4 !! d = Some Dir ->
  path_isdir (fs st4) extract_dir = true ->
  file ∈ listdir (fs st4) extract_dir ->
  is_auto_generated E extract_dir = false /\
  is_auto_generated E (join extract_dir file) = false.
Proof.
  intros extract_dir Ht Hw st4 Hd Hdir Hfile.
  assert (fs st4 ⊆ fs st3) as Hsub.
  { subst st4. rewrite (extract_after_walk E (Some s) (Some d) o c st st1 st3 Ht Hw).
    simpl default. cbn [snd]. destruct c; [| done].
    destruct (path_exists (fs st3) s); [| done].
    destruct (fs st3 !! s) as [[] |]; try done.
    destruct (remove_denied E (fs st3) s); [done |]. simpl. apply delete_subseteq. }
  apply path_isdir_lookup in Hdir. apply elem_of_listdir in Hfile as [k Hfile].
  pose proof (lookup_weaken _ _ _ _ Hd Hsub) as Hd3.
  pose proof (lookup_weaken _ _ _ _ Hdir Hsub) as Hdir3.
  pose proof (lookup_weaken _ _ _ _ Hfile Hsub) as Hfile3.
  unfold walk_dst in Hw. split.
  - eapply (os_walk_leaves_clean E _ _ _ _ Hw).
    apply in_subtree_child; [done | by eexists].
  - eapply (os_walk_leaves_clean E _ _ _ _ Hw).
    apply (in_subtree_deeper _ d (splitext_root (basename s))); [done |].
    apply in_subtree_child; [done | by eexists].
Qed.

Lemma descent_meets_nothing_auto_generated_witness :
  let st := demo_state demo_fs in
  is_auto_generated demo_env ["d"; "outer"] = false /\
  is_auto_generated demo_env ["d"; "outer"; "inner.zip"] = false.
Proof.
  intros st.
  apply (descent_meets_nothing_auto_generated demo_env ["d"; "outer.zip"] ["d"]
           demo_options true st
           (test_archive demo_env (Some ["d"; "outer.zip"]) demo_options st).2
           (walk_dst demo_env ["d"]
              (after_unpack demo_env ["d"; "outer.zip"] ["d"] demo_options
                 (test_archive demo_env (Some ["d"; "outer.zip"]) demo_options st).2)).2
           "inner.zip").
  - vm_compute. reflexivity.
  - vm_compute. reflexivity.
  - vm_compute. reflexivity.
  - vm_compute. reflexivity.
  - apply elem_of_listdir. vm_compute. by eexists.
Defined.
